(** * nanomsg, src/utils/aio.c: user sockets and the emulated completion port

    A shallow embedding of the POSIX build of [aio.c] (the branch compiled
    when [SP_HAVE_WINDOWS] is not defined), together with the properties of
    it that the specification states.

    - Part 1 fixes what the included headers provide: the constants of the
      system headers and of [aio.h], and the width of [size_t].
    - Part 2 is the effect model: a failed assertion aborts the process, the
      kernel is an oracle answering system calls, and every call is logged.
    - Part 3 embeds the user socket ([sp_usock_*]).
    - Part 4 embeds the emulated completion port ([sp_cp_*]).
    - Part 5 defines the vocabulary of the properties and proves them:
      first the circular buffer, then the claims about the completion
      port, then the claims about the user socket.
    - Part 6 proves further properties of both. *)

From Stdlib Require Import ZArith Lia Bool.
From stdpp Require Import base list.

Local Open Scope Z_scope.

(* ===================================================================== *)
(** * Part 1: what the headers provide                                     *)
(* ===================================================================== *)

(** [aio.c] is written against constants that come from the system headers
    ([errno.h], [sys/socket.h], [netinet/tcp.h], [netinet/in.h], [fcntl.h])
    and from [aio.h].  None of them is fixed by [aio.c] itself, so they are
    the fields of a record; a constant that the code tests with [#ifdef] is
    an [option].  [size_bits] is the width of [size_t] and [ssize_t]. *)
Record headers : Type := {
  (* errno.h *)
  EAGAIN : Z;
  EWOULDBLOCK : Z;
  EINTR : Z;
  ECONNRESET : Z;
  EPIPE : Z;
  ECONNREFUSED : Z;
  ETIMEDOUT : Z;
  EHOSTUNREACH : Z;
  ENOTCONN : Z;
  EINPROGRESS : Z;
  (* sys/socket.h, netinet/in.h, netinet/tcp.h *)
  AF_INET : Z;
  AF_INET6 : Z;
  SOCK_STREAM : Z;
  SOCK_CLOEXEC : option Z;
  SOL_SOCKET : Z;
  SO_NOSIGPIPE : option Z;
  SO_REUSEADDR : Z;
  IPPROTO_TCP : Z;
  IPPROTO_IPV6 : Z;
  TCP_NODELAY : Z;
  TCP_NODELACK : option Z;
  IPV6_V6ONLY : option Z;
  MSG_NOSIGNAL : option Z;
  (* fcntl.h *)
  FD_CLOEXEC : option Z;
  F_SETFD : Z;
  F_GETFL : Z;
  F_SETFL : Z;
  O_NONBLOCK : Z;
  (* aio.h *)
  SP_USOCK_PARTIAL : Z;
  (* stddef.h *)
  size_bits : Z
}.

(** The constants of Linux on x86-64 (glibc), with [SP_USOCK_PARTIAL] as
    the single flag bit. *)
Definition linux_x86_64 : headers := {|
  EAGAIN := 11; EWOULDBLOCK := 11; EINTR := 4; ECONNRESET := 104;
  EPIPE := 32; ECONNREFUSED := 111; ETIMEDOUT := 110; EHOSTUNREACH := 113;
  ENOTCONN := 107; EINPROGRESS := 115;
  AF_INET := 2; AF_INET6 := 10; SOCK_STREAM := 1;
  SOCK_CLOEXEC := Some 524288 (* 02000000 *);
  SOL_SOCKET := 1; SO_NOSIGPIPE := None; SO_REUSEADDR := 2;
  IPPROTO_TCP := 6; IPPROTO_IPV6 := 41; TCP_NODELAY := 1;
  TCP_NODELACK := None; IPV6_V6ONLY := Some 26;
  MSG_NOSIGNAL := Some 16384;
  FD_CLOEXEC := Some 1; F_SETFD := 2; F_GETFL := 3; F_SETFL := 4;
  O_NONBLOCK := 2048;
  SP_USOCK_PARTIAL := 1;
  size_bits := 64
|}.

(** A system without [SOCK_CLOEXEC] and [MSG_NOSIGNAL] but with
    [SO_NOSIGPIPE] (the constants of Mac OS X). *)
Definition darwin : headers := {|
  EAGAIN := 35; EWOULDBLOCK := 35; EINTR := 4; ECONNRESET := 54;
  EPIPE := 32; ECONNREFUSED := 61; ETIMEDOUT := 60; EHOSTUNREACH := 65;
  ENOTCONN := 57; EINPROGRESS := 36;
  AF_INET := 2; AF_INET6 := 30; SOCK_STREAM := 1;
  SOCK_CLOEXEC := None;
  SOL_SOCKET := 65535; SO_NOSIGPIPE := Some 4130; SO_REUSEADDR := 4;
  IPPROTO_TCP := 6; IPPROTO_IPV6 := 41; TCP_NODELAY := 1;
  TCP_NODELACK := None; IPV6_V6ONLY := Some 27;
  MSG_NOSIGNAL := None;
  FD_CLOEXEC := Some 1; F_SETFD := 2; F_GETFL := 3; F_SETFL := 4;
  O_NONBLOCK := 4;
  SP_USOCK_PARTIAL := 1;
  size_bits := 64
|}.

(** The null pointer. *)
Definition NULL : Z := 0.

(** Largest value of [size_t]. *)
Definition SIZE_MAX (H : headers) : Z := 2 ^ size_bits H - 1.

(** Conversion of a signed value to [size_t].  [nbytes == *len] compares an
    [ssize_t] with a [size_t]: the usual arithmetic conversions turn the
    signed operand into [size_t] first, so -1 compares equal to
    [SIZE_MAX]. *)
Definition to_size_t (H : headers) (n : Z) : Z := n mod 2 ^ size_bits H.

(** The errors [sp_usock_recv] reports as a lost connection. *)
Definition recv_failures (H : headers) : list Z :=
  [ECONNRESET H; ECONNREFUSED H; ETIMEDOUT H; EHOSTUNREACH H; ENOTCONN H].

(** POSIX gives the error numbers distinct values, except that [EAGAIN] and
    [EWOULDBLOCK] may coincide.  The part of this that the receive path
    relies on: no connection failure is mistaken for would-block or for an
    interrupted call. *)
Definition errno_distinct (H : headers) : bool :=
  forallb (fun e => negb (e =? EAGAIN H) && negb (e =? EWOULDBLOCK H)
                    && negb (e =? EINTR H))
          (recv_failures H).

(* ===================================================================== *)
(** * Part 2: effects                                                      *)
(* ===================================================================== *)

(** Outcome of running a piece of the program.  [Abort] is a failed
    [sp_assert], [errno_assert] or [alloc_assert]: the process is killed and
    nothing is returned to the caller.  [Undef] is an access the C standard
    leaves undefined (outside the allocated block, or a read of a slot that
    was never written). *)
Inductive res (A : Type) : Type :=
| Ok (a : A)
| Abort
| Undef.
Arguments Ok {A} a.
Arguments Abort {A}.
Arguments Undef {A}.

(** The system calls [aio.c] issues on the POSIX build.  Option values are
    the [int] the option is set to; buffers are named by their address. *)
Inductive syscall : Type :=
| Sys_socket (domain type protocol : Z)
| Sys_fcntl (fd cmd arg : Z)
| Sys_setsockopt (fd level optname optval : Z)
| Sys_close (fd : Z)
| Sys_bind (fd addr addrlen : Z)
| Sys_listen (fd backlog : Z)
| Sys_send (fd buf len flags : Z)
| Sys_recv (fd buf len flags : Z).

(** The kernel is an oracle: given the calls made so far and the next call,
    it answers with the return value and the value [errno] has afterwards.
    Nothing is assumed about its answers. *)
Definition kernel : Type := list syscall -> syscall -> Z * Z.

(** The world outside the process image: the kernel, [errno], and the log
    of the system calls made so far (oldest first). *)
Record world : Type := {
  os : kernel;
  errno : Z;
  trace : list syscall
}.

(** Computations that make system calls and may abort. *)
Definition M (A : Type) : Type := world -> res (A * world).

Definition ret {A} (a : A) : M A := fun w => Ok (a, w).

Definition bind {A B} (m : M A) (k : A -> M B) : M B :=
  fun w => match m w with
           | Ok (a, w') => k a w'
           | Abort => Abort
           | Undef => Undef
           end.

Notation "'exec' x <- m ; k" := (bind m (fun x => k))
  (at level 10, x name, m at level 100, k at level 200).
Notation "'exec_' m ; k" := (bind m (fun _ => k))
  (at level 10, m at level 100, k at level 200).

(** Perform one system call. *)
Definition sys (c : syscall) : M Z :=
  fun w => let '(r, e) := os w (trace w) c in
           Ok (r, {| os := os w; errno := e; trace := trace w ++ [c] |}).

(** Read [errno]. *)
Definition get_errno : M Z := fun w => Ok (errno w, w).

(** Modelled from the spec: [sp_assert] and [errno_assert] are macros of
    [err.h], which is not among the sources; the specification calls them
    fatal assertions.  A failed one aborts the process. *)
Definition sp_assert (b : bool) : M unit :=
  fun w => if b then Ok (tt, w) else Abort.

Definition errno_assert (b : bool) : M unit := sp_assert b.

(* ===================================================================== *)
(** * Part 3: the user socket                                              *)
(* ===================================================================== *)

(** [struct sp_usock] (declared in [aio.h]): the handle, the three
    arguments it was opened with, and the completion port it is registered
    with ([NULL] when it is not).  Pointers are addresses. *)
Record sp_usock : Type := {
  s : Z;
  domain : Z;
  type : Z;
  protocol : Z;
  aio : Z
}.

Section Usock.

Variable H : headers.

(** The function body of [sp_usock_tune], statement by statement.  It
    reads the socket and changes nothing in it. *)
Definition sp_usock_tune (self : sp_usock) : M unit :=
  (* #ifdef SO_NOSIGPIPE *)
  exec_ (match SO_NOSIGPIPE H with
         | Some nosigpipe =>
             exec rc <- sys (Sys_setsockopt (s self) (SOL_SOCKET H) nosigpipe 1);
             errno_assert (rc =? 0)
         | None => ret tt
         end);
  (* non-blocking mode *)
  exec flags <- sys (Sys_fcntl (s self) (F_GETFL H) 0);
  let flags := if flags =? -1 then 0 else flags in
  exec rc <- sys (Sys_fcntl (s self) (F_SETFL H) (Z.lor flags (O_NONBLOCK H)));
  exec_ errno_assert (negb (rc =? -1));
  (* Nagle's algorithm *)
  exec_ (if ((domain self =? AF_INET H) || (domain self =? AF_INET6 H))
            && (type self =? SOCK_STREAM H)
         then
           exec rc <- sys (Sys_setsockopt (s self) (IPPROTO_TCP H) (TCP_NODELAY H) 1);
           errno_assert (rc =? 0)
         else ret tt);
  (* #if defined TCP_NODELACK *)
  exec_ (match TCP_NODELACK H with
         | Some nodelack =>
             exec rc <- sys (Sys_setsockopt (s self) (IPPROTO_TCP H) nodelack 1);
             errno_assert (rc =? 0)
         | None => ret tt
         end);
  (* #if defined IPV6_V6ONLY *)
  match IPV6_V6ONLY H with
  | Some v6only =>
      if domain self =? AF_INET6 H then
        exec rc <- sys (Sys_setsockopt (s self) (IPPROTO_IPV6 H) v6only 0);
        errno_assert (rc =? 0)
      else ret tt
  | None => ret tt
  end.

(** The assignment [self->s = fd]. *)
Definition set_s (fd : Z) (self : sp_usock) : sp_usock :=
  {| s := fd; domain := domain self; type := type self;
     protocol := protocol self; aio := aio self |}.

(** The assignment [usock->aio = cp]. *)
Definition set_aio (cp : Z) (usock : sp_usock) : sp_usock :=
  {| s := s usock; domain := domain usock; type := type usock;
     protocol := protocol usock; aio := cp |}.

(** [sp_usock_init].  The result is the return value and the socket as the
    function leaves it; [self] is the socket as it was before the call
    (its fields are overwritten). *)
Definition sp_usock_init (self : sp_usock) (domain type protocol : Z)
  : M (Z * sp_usock) :=
  (* #ifdef SOCK_CLOEXEC: type |= SOCK_CLOEXEC *)
  let type := match SOCK_CLOEXEC H with
              | Some cloexec => Z.lor type cloexec
              | None => type
              end in
  exec fd <- sys (Sys_socket domain type protocol);
  let self := set_s fd self in
  if fd <? 0 then
    exec e <- get_errno; ret (- e, self)
  else
    let self := {| s := fd; domain := domain; type := type;
                   protocol := protocol; aio := NULL |} in
    (* #if !defined SOCK_CLOEXEC && defined FD_CLOEXEC *)
    exec_ (match SOCK_CLOEXEC H, FD_CLOEXEC H with
           | None, Some fd_cloexec =>
               exec rc <- sys (Sys_fcntl (s self) (F_SETFD H) fd_cloexec);
               errno_assert (negb (rc =? -1))
           | _, _ => ret tt
           end);
    exec_ sp_usock_tune self;
    ret (0, self).

(** [sp_cp_register_usock] of the POSIX build; [self] is the address of
    the completion port. *)
Definition sp_cp_register_usock (self : Z) (usock : sp_usock) : M sp_usock :=
  exec_ sp_assert (aio usock =? NULL);
  ret (set_aio self usock).

(** [sp_usock_term]. *)
Definition sp_usock_term (self : sp_usock) : M unit :=
  exec rc <- sys (Sys_close (s self));
  errno_assert (rc =? 0).

(** [sp_usock_bind]. *)
Definition sp_usock_bind (self : sp_usock) (addr addrlen : Z) : M Z :=
  exec rc <- sys (Sys_bind (s self) addr addrlen);
  if rc <? 0 then exec e <- get_errno; ret (- e) else ret 0.

(** [sp_usock_listen]. *)
Definition sp_usock_listen (self : sp_usock) (backlog : Z) : M Z :=
  exec rc <- sys (Sys_setsockopt (s self) (SOL_SOCKET H) (SO_REUSEADDR H) 1);
  exec_ errno_assert (rc =? 0);
  exec rc <- sys (Sys_listen (s self) backlog);
  if rc <? 0 then exec e <- get_errno; ret (- e) else ret 0.

(** [sp_usock_connect] and [sp_usock_accept] consist of [sp_assert (0)]. *)
Definition sp_usock_connect (self : sp_usock) (addr addrlen hndl : Z) : M Z :=
  exec_ sp_assert false; ret 0.

Definition sp_usock_accept (self usock : sp_usock) (hndl : Z) : M Z :=
  exec_ sp_assert false; ret 0.

(** The label [async:] that ends [sp_usock_send] and [sp_usock_recv]:
    [sp_assert (0); return -EINPROGRESS;]. *)
Definition async : M Z :=
  exec_ sp_assert false; ret (- EINPROGRESS H).

(** [sp_usock_send].  [len] is the value of [*len] at the call; the result
    is the return value and the value of [*len] afterwards (the function
    never writes it). *)
Definition sp_usock_send (self : sp_usock) (buf len flags hndl : Z)
  : M (Z * Z) :=
  let sflags := match MSG_NOSIGNAL H with Some f => f | None => 0 end in
  if len =? 0 then ret (0, len) else
  exec nbytes <- sys (Sys_send (s self) buf len sflags);
  if to_size_t H nbytes =? len then ret (0, len) else
  exec rc <-
    (if nbytes <? 0 then
       exec e <- get_errno;
       if negb (e =? EAGAIN H) && negb (e =? EWOULDBLOCK H) then
         (* nbytes = 0; goto async; *)
         async
       else if e =? EINTR H then ret (- EINTR H)
       else if (e =? ECONNRESET H) || (e =? EPIPE H) then ret (- ECONNRESET H)
       else exec_ errno_assert false; async
     else async);
  ret (rc, len).

(** [sp_usock_recv], with the same conventions. *)
Definition sp_usock_recv (self : sp_usock) (buf len flags hndl : Z)
  : M (Z * Z) :=
  if len =? 0 then ret (0, len) else
  exec nbytes <- sys (Sys_recv (s self) buf len 0);
  if to_size_t H nbytes =? len then ret (0, len) else
  if (0 <? nbytes) && negb (Z.land flags (SP_USOCK_PARTIAL H) =? 0) then
    (* *len = nbytes *)
    ret (0, nbytes)
  else if nbytes =? 0 then ret (- ECONNRESET H, len)
  else
  exec rc <-
    (if nbytes <? 0 then
       exec e <- get_errno;
       if (e =? EAGAIN H) || (e =? EWOULDBLOCK H) then
         (* nbytes = 0; goto async; *)
         async
       else if e =? EINTR H then ret (- EINTR H)
       else if (e =? ECONNRESET H) || (e =? ECONNREFUSED H)
               || (e =? ETIMEDOUT H) || (e =? EHOSTUNREACH H)
               || (e =? ENOTCONN H) then ret (- ECONNRESET H)
       else exec_ errno_assert false; async
     else async);
  ret (rc, len).

End Usock.

(* ===================================================================== *)
(** * Part 4: the emulated completion port                                 *)
(* ===================================================================== *)

(** [struct sp_cp_item]: the operation code and the opaque argument. *)
Record sp_cp_item : Type := {
  op : Z;
  arg : Z
}.

(** A heap block of items.  A slot that was never written holds no
    value. *)
Abbreviation block := (list (option sp_cp_item)).

(** [struct sp_cp] of the POSIX build.  [capacity], [head], [tail] and
    [items] are the fields of the C structure.  The cursors are taken as
    mathematical integers: their C type is declared in [aio.h], and a
    queue too large for it is beyond what the allocator hands out.
    [eventfd] is the state of the wake-up signal and [evhndl] the address
    [&self->evhndl] under which the signal is registered with the poller.
    The mutex [sync] has no field: each section of code between
    [sp_mutex_lock] and [sp_mutex_unlock] is one function below and is
    executed as one atomic step. *)
Record sp_cp : Type := {
  eventfd : bool;
  evhndl : Z;
  capacity : Z;
  head : Z;
  tail : Z;
  items : block
}.

Definition SP_CP_INITIAL_CAPACITY : Z := 64.

(** Modelled from the spec: [sp_eventfd_signal] and [sp_eventfd_unsignal]
    belong to the wake-up primitive, which is not among the sources; the
    specification describes it as a signal object that is raised and
    lowered. *)
Definition sp_eventfd_signal (self : sp_cp) : sp_cp :=
  {| eventfd := true; evhndl := evhndl self; capacity := capacity self;
     head := head self; tail := tail self; items := items self |}.

Definition sp_eventfd_unsignal (self : sp_cp) : sp_cp :=
  {| eventfd := false; evhndl := evhndl self; capacity := capacity self;
     head := head self; tail := tail self; items := items self |}.

(** Modelled from the spec: [sp_alloc] and [sp_realloc] belong to the
    allocator ([alloc.h]), which is not among the sources; the
    specification takes it as a correct black box.  A fresh block holds no
    values; a reallocated block keeps its old contents and is extended by
    slots without a value.  The [alloc_assert] that follows each call in
    [aio.c] therefore always passes. *)
Definition sp_alloc (n : Z) : block := replicate (Z.to_nat n) None.

Definition sp_realloc (b : block) (n : Z) : block :=
  take (Z.to_nat n) b ++ replicate (Z.to_nat n - length b) None.

(** [b[i] = x]; outside the block the store is undefined. *)
Definition store (b : block) (i : Z) (x : sp_cp_item) : res block :=
  if (0 <=? i) && (i <? Z.of_nat (length b))
  then Ok (<[Z.to_nat i := Some x]> b)
  else Undef.

(** The value of [b[i]]; undefined outside the block and for a slot that
    holds no value. *)
Definition load (b : block) (i : Z) : res sp_cp_item :=
  if 0 <=? i then
    match b !! Z.to_nat i with
    | Some (Some x) => Ok x
    | _ => Undef
    end
  else Undef.

(** [memcpy (b + dst, b + src, n * sizeof (struct sp_cp_item))] inside one
    block; both ranges must lie in the block and must not overlap. *)
Definition memcpy (b : block) (dst src n : Z) : res block :=
  if (0 <=? dst) && (0 <=? src) && (0 <=? n)
     && (dst + n <=? Z.of_nat (length b)) && (src + n <=? Z.of_nat (length b))
     && ((src + n <=? dst) || (dst + n <=? src))
  then Ok (take (Z.to_nat dst) b
           ++ take (Z.to_nat n) (drop (Z.to_nat src) b)
           ++ drop (Z.to_nat (dst + n)) b)
  else Undef.

(** The part of [sp_cp_init] that sets up the queue; the wake-up signal
    starts lowered.  [self] is the structure before the call. *)
Definition sp_cp_init (self : sp_cp) : sp_cp :=
  {| eventfd := false; evhndl := evhndl self;
     capacity := SP_CP_INITIAL_CAPACITY; head := 0; tail := 0;
     items := sp_alloc SP_CP_INITIAL_CAPACITY |}.

(** [sp_cp_post]. *)
Definition sp_cp_post (self : sp_cp) (op arg : Z) : res sp_cp :=
  (* self->items [self->tail] = {op, arg} *)
  match store (items self) (tail self) {| op := op; arg := arg |} with
  | Ok items1 =>
      let empty := tail self =? head self in
      if capacity self =? 0 then Undef else
      let tail1 := Z.rem (tail self + 1) (capacity self) in
      let grown :=
        if head self =? tail1 then
          match memcpy (sp_realloc items1 (capacity self * 2))
                       (capacity self) 0 tail1 with
          | Ok items2 =>
              Ok {| eventfd := eventfd self; evhndl := evhndl self;
                    capacity := capacity self * 2; head := head self;
                    tail := tail1 + capacity self; items := items2 |}
          | Abort => Abort
          | Undef => Undef
          end
        else
          Ok {| eventfd := eventfd self; evhndl := evhndl self;
                capacity := capacity self; head := head self;
                tail := tail1; items := items1 |} in
      match grown with
      | Ok self1 => Ok (if empty then sp_eventfd_signal self1 else self1)
      | Abort => Abort
      | Undef => Undef
      end
  | Abort => Abort
  | Undef => Undef
  end.

(** The section of [sp_cp_wait] that runs under the mutex (it occurs
    twice, before and after the poller is consulted): if there is an item,
    take it.  The result is the item, if any, and the port afterwards. *)
Definition wait_locked (self : sp_cp) : res (option sp_cp_item * sp_cp) :=
  if negb (head self =? tail self) then
    match load (items self) (head self) with
    | Ok it =>
        if capacity self =? 0 then Undef else
        let self1 :=
          {| eventfd := eventfd self; evhndl := evhndl self;
             capacity := capacity self;
             head := Z.rem (head self + 1) (capacity self);
             tail := tail self; items := items self |} in
        Ok (Some it,
            if head self1 =? tail self1 then sp_eventfd_unsignal self1
            else self1)
    | Abort => Abort
    | Undef => Undef
    end
  else Ok (None, self).

(** What [sp_poller_wait] hands back: the return code, the event and the
    handle the event belongs to.  The poller is not among the sources; its
    answer is an input. *)
Record poller_result : Type := {
  p_rc : Z;
  p_event : Z;
  p_hndl : Z
}.

Section Wait.

Variable H : headers.

(** [sp_cp_wait] as run by a thread while no other thread touches the
    port.  The result is the return value, the pair written to [*op] and
    [*arg] (if any) and the port afterwards. *)
Definition sp_cp_wait (self : sp_cp) (timeout : Z) (p : poller_result)
  : res (Z * option sp_cp_item * sp_cp) :=
  match wait_locked self with
  | Ok (Some it, self1) => Ok (0, Some it, self1)
  | Ok (None, self1) =>
      (* rc = sp_poller_wait (&self->poller, timeout, &event, &hndl) *)
      if (p_rc p =? - ETIMEDOUT H) || (p_rc p =? - EINTR H)
      then Ok (p_rc p, None, self1)
      else if negb (p_rc p =? 0) then Abort           (* errnum_assert *)
      else if negb (p_hndl p =? evhndl self1) then Abort  (* sp_assert *)
      else
        match wait_locked self1 with
        | Ok (Some it, self2) => Ok (0, Some it, self2)
        | Ok (None, self2) => Ok (- ETIMEDOUT H, None, self2)
        | Abort => Abort
        | Undef => Undef
        end
  | Abort => Abort
  | Undef => Undef
  end.

End Wait.

(* ===================================================================== *)
(** * Part 5: properties                                                   *)
(* ===================================================================== *)

(** ** The queue held by a completion port *)

(** The slots from [head] up to, not including, [tail], in the order in
    which [sp_cp_wait] visits them: one stretch when [head <= tail], the
    stretch up to the end of the block followed by the stretch from its
    start when the region wraps. *)
Definition live_slots (self : sp_cp) : block :=
  let h := Z.to_nat (head self) in
  let t := Z.to_nat (tail self) in
  if head self <=? tail self
  then take (t - h) (drop h (items self))
  else drop h (items self) ++ take t (items self).

(** The events waiting in the port, oldest first. *)
Definition pending (self : sp_cp) : list sp_cp_item :=
  omap id (live_slots self).

(** Slot [i] holds a waiting event. *)
Definition live (self : sp_cp) (i : Z) : Prop :=
  if head self <=? tail self
  then head self <= i < tail self
  else head self <= i < capacity self \/ 0 <= i < tail self.

(** Post a list of events, first to last. *)
Fixpoint post_all (self : sp_cp) (l : list sp_cp_item) : res sp_cp :=
  match l with
  | [] => Ok self
  | it :: l' =>
      match sp_cp_post self (op it) (arg it) with
      | Ok self1 => post_all self1 l'
      | Abort => Abort
      | Undef => Undef
      end
  end.

(** Call [sp_cp_wait] once for every element of [calls] (the timeout
    passed and the answer the poller would give); the result lists what
    each call returned. *)
Fixpoint wait_all (H : headers) (self : sp_cp)
    (calls : list (Z * poller_result))
  : res (list (Z * option sp_cp_item) * sp_cp) :=
  match calls with
  | [] => Ok ([], self)
  | (timeout, p) :: calls' =>
      match sp_cp_wait H self timeout p with
      | Ok (rc, out, self1) =>
          match wait_all H self1 calls' with
          | Ok (outs, self2) => Ok ((rc, out) :: outs, self2)
          | Abort => Abort
          | Undef => Undef
          end
      | Abort => Abort
      | Undef => Undef
      end
  end.

(** What a call of [sp_cp_wait] that delivers [it] returns: 0, with [it]
    written to [*op] and [*arg]. *)
Definition delivered (it : sp_cp_item) : Z * option sp_cp_item :=
  (0, Some it).

(** The states a completion port goes through.  The mutex serialises the
    locked sections, so whatever the number of threads and however they
    interleave, the port sees a sequence of steps, each the whole of
    [sp_cp_post] or one locked section of [sp_cp_wait]. *)
Inductive cp_step : sp_cp -> sp_cp -> Prop :=
| step_post self op arg self' :
    sp_cp_post self op arg = Ok self' -> cp_step self self'
| step_wait self out self' :
    wait_locked self = Ok (out, self') -> cp_step self self'.

Inductive reachable : sp_cp -> Prop :=
| reach_init self : reachable (sp_cp_init self)
| reach_step self self' :
    reachable self -> cp_step self self' -> reachable self'.

(** The same steps with their history: the events posted so far and the
    events handed out by wait so far, both oldest first. *)
Inductive history : sp_cp -> list sp_cp_item -> list sp_cp_item -> Prop :=
| hist_init self : history (sp_cp_init self) [] []
| hist_post self posted taken op arg self' :
    history self posted taken ->
    sp_cp_post self op arg = Ok self' ->
    history self' (posted ++ [{| op := op; arg := arg |}]) taken
| hist_take self posted taken it self' :
    history self posted taken ->
    wait_locked self = Ok (Some it, self') ->
    history self' posted (taken ++ [it])
| hist_none self posted taken self' :
    history self posted taken ->
    wait_locked self = Ok (None, self') ->
    history self' posted taken.

(** The representation invariant of the circular buffer. *)
Record cp_inv (self : sp_cp) : Prop := {
  inv_capacity : 1 < capacity self;
  inv_length : Z.of_nat (length (items self)) = capacity self;
  inv_head : 0 <= head self < capacity self;
  inv_tail : 0 <= tail self < capacity self;
  inv_live : Forall is_Some (live_slots self);
  inv_eventfd : eventfd self = negb (head self =? tail self)
}.

(** ** Concrete data for the examples *)

(** A completion port structure before [sp_cp_init] has run: its fields
    hold whatever was in memory. *)
Definition cp0 : sp_cp :=
  {| eventfd := true; evhndl := 4096; capacity := 0; head := 7; tail := 3;
     items := [] |}.

(** [n] distinct events: operation codes 0, 1, ... with arguments 1000,
    1001, ... *)
Definition events (n : nat) : list sp_cp_item :=
  (fun i => {| op := Z.of_nat i; arg := 1000 + Z.of_nat i |}) <$> seq 0 n.

(** The poller reporting that the timeout has expired. *)
Definition poll_timeout (H : headers) : poller_result :=
  {| p_rc := - ETIMEDOUT H; p_event := 0; p_hndl := 0 |}.

(** [n] calls of [sp_cp_wait] with timeout 0. *)
Definition polls (H : headers) (n : nat) : list (Z * poller_result) :=
  replicate n (0, poll_timeout H).

(** A kernel that gives the same answer to every call. *)
Definition kernel_answers (r e : Z) : kernel := fun _ _ => (r, e).

(** A kernel under which every call succeeds; [socket] returns the
    descriptor 3. *)
Definition kernel_ok : kernel :=
  fun _ c => match c with
             | Sys_socket _ _ _ => (3, 0)
             | _ => (0, 0)
             end.

(** The world at the start of a run under kernel [k]. *)
Definition world0 (k : kernel) : world :=
  {| os := k; errno := 0; trace := [] |}.

(** A socket structure before [sp_usock_init] has run. *)
Definition usock0 : sp_usock :=
  {| s := -1; domain := 0; type := 0; protocol := 0; aio := 12345 |}.

(** An unregistered TCP socket on descriptor 3 (Linux constants). *)
Definition sock3 : sp_usock :=
  {| s := 3; domain := 2; type := 1; protocol := 0; aio := NULL |}.

(** Register a socket with the ports [cps], one call after the other. *)
Fixpoint register_all (cps : list Z) (usock : sp_usock) : M sp_usock :=
  match cps with
  | [] => ret usock
  | cp :: cps' =>
      exec usock1 <- sp_cp_register_usock cp usock;
      register_all cps' usock1
  end.

(** The port after [n] posts into a fresh queue. *)
Definition after_posts (n : nat) : sp_cp :=
  match post_all (sp_cp_init cp0) (events n) with
  | Ok self => self
  | _ => sp_cp_init cp0
  end.

(** The part of the distinctness of the error numbers that the send path
    relies on: neither an interrupted call nor a lost connection has the
    number of would-block. *)
Definition send_errno_distinct (H : headers) : bool :=
  forallb (fun e => negb (e =? EAGAIN H) && negb (e =? EWOULDBLOCK H))
          [EINTR H; ECONNRESET H; EPIPE H].

(** The world after one more system call [c] that left [e] in [errno]. *)
Definition after_call (w : world) (c : syscall) (e : Z) : world :=
  {| os := os w; errno := e; trace := trace w ++ [c] |}.

(** A port whose block is full while its region is wrapped: 40 posts, 39
    waits, 62 more posts ([head] is 39, [tail] is 38). *)
Definition wrapped_full : sp_cp :=
  match post_all (sp_cp_init cp0) (events 40) with
  | Ok s1 =>
      match wait_all linux_x86_64 s1 (polls linux_x86_64 39) with
      | Ok (_, s2) =>
          match post_all s2 (events 62) with
          | Ok s3 => s3
          | _ => s2
          end
      | _ => s1
      end
  | _ => sp_cp_init cp0
  end.

(** Turn a goal about the boolean tests of the code into arithmetic. *)
Ltac tests_lia :=
  try symmetry;
  rewrite ?andb_true_iff, ?orb_true_iff, ?negb_true_iff, ?negb_false_iff,
    ?Z.leb_le, ?Z.ltb_lt, ?Z.eqb_eq, ?Z.leb_gt, ?Z.ltb_ge, ?Z.eqb_neq;
  lia.

(** ** Lists used as arrays *)

Section ListFacts.

Context {A : Type}.
Implicit Types (l : list A) (x : A).

Lemma take_S_insert l k x :
  (k < length l)%nat -> take (S k) (<[k:=x]> l) = take k l ++ [x].
Proof.
  intros Hk.
  rewrite (take_S_r _ _ x) by (by apply list_lookup_insert_eq).
  by rewrite take_insert_ge.
Qed.

Lemma push_flat l h t x :
  (h <= t < length l)%nat ->
  take (S t - h)%nat (drop h (<[t:=x]> l))
  = take (t - h)%nat (drop h l) ++ [x].
Proof.
  intros [Hh Ht]. rewrite drop_insert_ge by done.
  replace (S t - h)%nat with (S (t - h)) by lia.
  apply take_S_insert. rewrite length_drop. lia.
Qed.

Lemma push_wrapped l h t x :
  (t < h)%nat -> (t < length l)%nat ->
  drop h (<[t:=x]> l) ++ take (S t) (<[t:=x]> l)
  = (drop h l ++ take t l) ++ [x].
Proof.
  intros Hth Ht. rewrite drop_insert_lt by done.
  rewrite take_S_insert by done. by rewrite app_assoc.
Qed.

Lemma push_last l h x :
  (h < length l)%nat ->
  drop h (<[(length l - 1)%nat:=x]> l)
  = take (length l - 1 - h)%nat (drop h l) ++ [x].
Proof.
  intros Hh.
  rewrite <- (push_flat l h (length l - 1)%nat x) by lia.
  rewrite take_ge; [done|]. rewrite length_drop, length_insert. lia.
Qed.

Lemma pop_flat l h t x :
  (h < t <= length l)%nat -> l !! h = Some x ->
  take (t - h)%nat (drop h l) = x :: take (t - S h)%nat (drop (S h) l).
Proof.
  intros [Hh Ht] Hx.
  rewrite (drop_S l x h) by done.
  replace (t - h)%nat with (S (t - S h)) by lia. done.
Qed.

End ListFacts.

(** ** The invariant holds initially and is kept by every step *)

Lemma Forall_is_Some_pending (b : block) :
  Forall is_Some b -> b = Some <$> omap id b.
Proof.
  induction 1 as [|o b [x ->] _ IH]; [done|].
  change (Some x :: b = Some x :: (Some <$> omap id b)). by f_equal.
Qed.

Lemma live_slots_pending self :
  cp_inv self -> live_slots self = Some <$> pending self.
Proof. intros Hi. apply Forall_is_Some_pending, (inv_live _ Hi). Qed.

Lemma init_inv self : cp_inv (sp_cp_init self).
Proof. split; simpl; try done; unfold SP_CP_INITIAL_CAPACITY; lia. Qed.

Lemma init_pending self : pending (sp_cp_init self) = [].
Proof. reflexivity. Qed.

(** [self->tail + 1) % self->capacity] on a well-formed port. *)
Lemma next_cursor i c :
  0 <= i < c -> Z.rem (i + 1) c = if i + 1 <? c then i + 1 else 0.
Proof.
  intros Hi. rewrite Z.rem_mod_nonneg by lia.
  destruct (Z.ltb_spec (i + 1) c).
  - apply Z.mod_small. lia.
  - replace (i + 1) with c by lia. apply Z.mod_same. lia.
Qed.

(** Doubling a full block and copying its first [n] slots behind its old
    end, as [sp_cp_post] does. *)
Lemma memcpy_grow (b : block) (c n : Z) :
  Z.of_nat (length b) = c -> 0 <= n <= c ->
  memcpy (sp_realloc b (c * 2)) c 0 n
  = Ok (b ++ take (Z.to_nat n) b ++ replicate (Z.to_nat (c - n)) None).
Proof.
  intros Hl Hn.
  assert (Hr : sp_realloc b (c * 2) = b ++ replicate (Z.to_nat c) None).
  { unfold sp_realloc. rewrite take_ge by lia.
    do 2 f_equal. lia. }
  rewrite Hr. unfold memcpy.
  rewrite length_app, length_replicate.
  replace ((0 <=? c) && (0 <=? 0) && (0 <=? n)
           && (c + n <=? Z.of_nat (length b + Z.to_nat c))
           && (0 + n <=? Z.of_nat (length b + Z.to_nat c))
           && ((0 + n <=? c) || (c + n <=? 0))) with true.
  2:{ tests_lia. }
  do 2 f_equal.
  - apply take_app_length'. lia.
  - f_equal.
    + change (Z.to_nat 0) with 0%nat. rewrite drop_0.
      apply take_app_le. lia.
    + rewrite drop_app_ge by lia. rewrite drop_replicate.
      f_equal. lia.
Qed.

(** After the copy the waiting events lie in one stretch. *)
Lemma grow_linear {A} (b r : list A) (h : nat) :
  (h <= length b)%nat ->
  take (length b) (drop h (b ++ take h b ++ r)) = drop h b ++ take h b.
Proof.
  intros Hh. rewrite drop_app_le by done. rewrite app_assoc.
  apply take_app_length'.
  rewrite length_app, length_drop, length_take. lia.
Qed.

(** Raising the signal touches no other field. *)
Lemma signal_if (b : bool) (self : sp_cp) :
  (if b then sp_eventfd_signal self else self)
  = {| eventfd := if b then true else eventfd self; evhndl := evhndl self;
       capacity := capacity self; head := head self; tail := tail self;
       items := items self |}.
Proof. by destruct b, self. Qed.

(** The invariant of a port that has just been posted to. *)
Lemma inv_intro_post self q x :
  1 < capacity self ->
  Z.of_nat (length (items self)) = capacity self ->
  0 <= head self < capacity self ->
  0 <= tail self < capacity self ->
  head self <> tail self ->
  eventfd self = true ->
  Forall is_Some q -> is_Some x ->
  live_slots self = q ++ [x] ->
  cp_inv self.
Proof.
  intros ? ? ? ? Hne Hev Hq Hx Hlive. split; try done.
  - rewrite Hlive. apply Forall_app. split; [done|]. by constructor.
  - rewrite Hev. tests_lia.
Qed.

(** What [sp_cp_post] does to a well-formed port: it returns, the event is
    appended to the waiting ones, [head] is untouched, and the capacity
    either stays (the buffer did not fill up) or doubles (it did). *)
Lemma post_spec self o a :
  cp_inv self ->
  exists self',
    sp_cp_post self o a = Ok self'
    /\ cp_inv self'
    /\ live_slots self' = live_slots self ++ [Some {| op := o; arg := a |}]
    /\ head self' = head self
    /\ evhndl self' = evhndl self
    /\ (if head self =? Z.rem (tail self + 1) (capacity self)
        then capacity self' = capacity self * 2
             /\ tail self' = Z.rem (tail self + 1) (capacity self)
                             + capacity self
        else capacity self' = capacity self
             /\ tail self' = Z.rem (tail self + 1) (capacity self)).
Proof.
  intros [Hc Hl Hh Ht Hlive Hev].
  destruct self as [ev eh c h t l]; simpl in *.
  unfold sp_cp_post, store, live_slots in *; simpl in *.
  replace ((0 <=? t) && (t <? Z.of_nat (length l))) with true
    by tests_lia.
  replace (c =? 0) with false by tests_lia.
  rewrite (next_cursor t c) by lia.
  set (x := Some {| op := o; arg := a |}).
  assert (Hx : is_Some x) by (by eexists).
  assert (Hsig : (if t =? h then true else ev) = true).
  { destruct (Z.eqb_spec t h); [done|]. rewrite Hev. tests_lia. }
  destruct (Z.ltb_spec (t + 1) c) as [Hlt|Hge];
    [destruct (Z.eqb_spec h (t + 1)) as [Heq|Hne]
    |destruct (Z.eqb_spec h 0) as [Heq|Hne]];
    rewrite ?memcpy_grow by (rewrite ?length_insert; lia);
    rewrite signal_if; simpl; rewrite Hsig;
    (eexists; split; [reflexivity|]); simpl;
    match goal with
    | |- _ /\ (?lhs = ?rhs /\ _) => assert (Hq : lhs = rhs)
    end.
  all: try (split;
    [ match type of Hq with
      | _ = ?q ++ _ => apply (inv_intro_post _ q x)
      end; simpl;
      rewrite ?length_app, ?length_take, ?length_replicate, ?length_insert;
      first [ lia | done ]
    | repeat split; first [ exact Hq | done | lia ] ]).
  - (* the block fills up while the region is wrapped: double and copy *)
    replace (h <=? t + 1 + c) with true by tests_lia.
    replace (h <=? t) with false by tests_lia.
    replace (Z.to_nat (t + 1 + c) - Z.to_nat h)%nat
      with (length (<[Z.to_nat t:=x]> l)) by (rewrite length_insert; lia).
    replace (Z.to_nat (t + 1)) with (Z.to_nat h) by lia.
    rewrite grow_linear by (rewrite length_insert; lia).
    replace (Z.to_nat h) with (S (Z.to_nat t)) by lia.
    apply push_wrapped; lia.
  - (* room is left and the tail does not wrap *)
    destruct (Z.leb_spec h t).
    + replace (h <=? t + 1) with true by tests_lia.
      replace (Z.to_nat (t + 1) - Z.to_nat h)%nat
        with (S (Z.to_nat t) - Z.to_nat h)%nat by lia.
      apply push_flat; lia.
    + replace (h <=? t + 1) with false by tests_lia.
      replace (Z.to_nat (t + 1)) with (S (Z.to_nat t)) by lia.
      apply push_wrapped; lia.
  - (* the block fills up with the head at its start: double, copy nothing *)
    subst h.
    replace (0 <=? 0 + c) with true by tests_lia.
    replace (0 <=? t) with true by tests_lia.
    change (Z.to_nat 0) with 0%nat. rewrite drop_0.
    rewrite take_app_length' by (rewrite length_insert; lia).
    replace (Z.to_nat t) with (length l - 1)%nat by lia.
    rewrite <- (push_last l 0 x) by lia. by rewrite drop_0.
  - (* the tail wraps to the start of the block *)
    replace (h <=? 0) with false by tests_lia.
    replace (h <=? t) with true by tests_lia.
    change (Z.to_nat 0) with 0%nat. rewrite take_0, app_nil_r.
    replace (Z.to_nat t) with (length l - 1)%nat by lia.
    apply push_last. lia.
Qed.

(** Lowering the signal touches no other field. *)
Lemma unsignal_if (b : bool) (self : sp_cp) :
  (if b then sp_eventfd_unsignal self else self)
  = {| eventfd := if b then false else eventfd self; evhndl := evhndl self;
       capacity := capacity self; head := head self; tail := tail self;
       items := items self |}.
Proof. by destruct b, self. Qed.

(** What the locked section of [sp_cp_wait] does to a well-formed port:
    with nothing waiting it leaves the port alone; otherwise it takes the
    oldest waiting event and moves [head] past it. *)
Lemma wait_locked_spec self :
  cp_inv self ->
  (head self = tail self /\ live_slots self = []
   /\ wait_locked self = Ok (None, self))
  \/ (exists it self',
        wait_locked self = Ok (Some it, self')
        /\ head self <> tail self
        /\ live_slots self = Some it :: live_slots self'
        /\ cp_inv self'
        /\ evhndl self' = evhndl self).
Proof.
  intros [Hc Hl Hh Ht Hlive Hev].
  destruct self as [ev eh c h t l]; simpl in *.
  unfold wait_locked, load, live_slots in *; simpl in *.
  destruct (Z.eqb_spec h t) as [Heq|Hne]; simpl.
  { left. subst t. rewrite Z.leb_refl, Nat.sub_diag. done. }
  right.
  replace (0 <=? h) with true by tests_lia.
  destruct (lookup_lt_is_Some_2 l (Z.to_nat h)) as [o Ho]; [lia|].
  assert (Hd : drop (Z.to_nat h) l = o :: drop (S (Z.to_nat h)) l)
    by (by apply drop_S).
  assert (is_Some o) as [it ->].
  { destruct (h <=? t) eqn:E.
    - rewrite Hd in Hlive.
      replace (Z.to_nat t - Z.to_nat h)%nat
        with (S (Z.to_nat t - S (Z.to_nat h))) in Hlive by tests_lia.
      by inversion Hlive.
    - rewrite Hd in Hlive. by inversion Hlive. }
  rewrite Ho.
  replace (c =? 0) with false by tests_lia.
  rewrite (next_cursor h c) by lia.
  rewrite unsignal_if; simpl.
  eexists it, _. split; [reflexivity|]. split; [done|].
  match goal with
  | |- ?lhs = ?rhs /\ _ => assert (Hq : lhs = rhs)
  end.
  { simpl. rewrite Hd.
    destruct (Z.ltb_spec (h + 1) c) as [Hlt|Hge].
    - replace (Z.to_nat (h + 1)) with (S (Z.to_nat h)) by lia.
      destruct (Z.leb_spec h t).
      + replace (h + 1 <=? t) with true by tests_lia.
        replace (Z.to_nat t - Z.to_nat h)%nat
          with (S (Z.to_nat t - S (Z.to_nat h))) by lia.
        done.
      + replace (h + 1 <=? t) with false by tests_lia. done.
    - replace (h <=? t) with false by tests_lia.
      replace (0 <=? t) with true by tests_lia.
      change (Z.to_nat 0) with 0%nat. rewrite drop_0, Nat.sub_0_r.
      by rewrite (drop_ge l (S (Z.to_nat h))) by lia. }
  split; [exact Hq|]. split; [|done].
  rewrite Hq in Hlive. apply Forall_cons_1 in Hlive as [_ Hlive].
  split; simpl; try done.
  - destruct (h + 1 <? c) eqn:E; tests_lia.
  - destruct (_ =? t); by subst ev.
Qed.

(** Every reachable port satisfies the invariant. *)
Lemma reachable_inv self : reachable self -> cp_inv self.
Proof.
  induction 1 as [self|self self' _ IH Hstep]; [apply init_inv|].
  destruct Hstep as [self o a self' Hpost|self out self' Hwait].
  - destruct (post_spec self o a IH) as (s1 & Hs1 & Hinv & _).
    congruence.
  - destruct (wait_locked_spec self IH)
      as [(_ & _ & Hw)|(it & s1 & Hw & _ & _ & Hinv & _)]; congruence.
Qed.

(** ** The same facts in terms of the waiting events *)

Lemma pending_nil_iff self :
  cp_inv self -> pending self = [] <-> head self = tail self.
Proof.
  intros Hinv. unfold pending.
  destruct (wait_locked_spec self Hinv)
    as [(Heq & Hl & _)|(it & s1 & _ & Hne & Hl & _)]; rewrite Hl; simpl.
  - done.
  - split; [done|]. intros; contradiction.
Qed.

(** The buffer is never completely full: one slot stays free. *)
Lemma pending_length self :
  cp_inv self -> Z.of_nat (length (pending self)) < capacity self.
Proof.
  intros Hinv. rewrite <- (length_fmap Some (pending self)).
  rewrite <- live_slots_pending by done.
  destruct Hinv as [Hc Hl Hh Ht _ _]. unfold live_slots.
  destruct (head self <=? tail self) eqn:E.
  - rewrite length_take, length_drop. lia.
  - rewrite length_app, length_take, length_drop. lia.
Qed.

Lemma post_pending self o a :
  cp_inv self ->
  exists self',
    sp_cp_post self o a = Ok self'
    /\ cp_inv self'
    /\ pending self' = pending self ++ [{| op := o; arg := a |}]
    /\ head self' = head self
    /\ evhndl self' = evhndl self
    /\ capacity self <= capacity self'.
Proof.
  intros Hinv.
  destruct (post_spec self o a Hinv) as (s1 & Hp & Hi & Hl & Hh & He & Hc).
  exists s1. split; [done|]. split; [done|]. split; [|split; [done|split; [done|]]].
  - unfold pending. rewrite Hl, omap_app. done.
  - destruct Hinv as [Hcap _ _ _ _ _].
    destruct (head self =? Z.rem _ _); lia.
Qed.

(** The doubling step: when the post fills the block, the capacity
    doubles and the waiting events, wrapped or not, end up in one stretch
    from [head] to the new [tail], the posted event last. *)
Lemma post_doubling_linearizes self o a :
  cp_inv self ->
  head self = Z.rem (tail self + 1) (capacity self) ->
  exists self',
    sp_cp_post self o a = Ok self'
    /\ capacity self' = capacity self * 2
    /\ head self' = head self
    /\ head self' < tail self' < capacity self'
    /\ live_slots self'
       = take (Z.to_nat (tail self' - head self'))
           (drop (Z.to_nat (head self')) (items self'))
    /\ pending self' = pending self ++ [{| op := o; arg := a |}].
Proof.
  intros Hinv Hfull.
  destruct (post_spec self o a Hinv) as (s1 & Hp & Hi & Hl & Hh & _ & Hc).
  rewrite <- Hfull, Z.eqb_refl in Hc. destruct Hc as [Hc Ht].
  pose proof (inv_head _ Hinv) as Hhd. pose proof (inv_capacity _ Hinv).
  exists s1. split; [done|]. split; [done|]. split; [done|].
  split; [lia|]. split.
  - unfold live_slots. replace (head s1 <=? tail s1) with true by tests_lia.
    f_equal. lia.
  - unfold pending. by rewrite Hl, omap_app.
Qed.

Lemma wait_pending_nil self :
  cp_inv self -> pending self = [] -> wait_locked self = Ok (None, self).
Proof.
  intros Hinv Hnil.
  destruct (wait_locked_spec self Hinv)
    as [(_ & _ & Hw)|(it & s1 & _ & _ & Hl & _)]; [done|].
  unfold pending in Hnil. by rewrite Hl in Hnil.
Qed.

Lemma wait_pending_cons self it q :
  cp_inv self -> pending self = it :: q ->
  exists self',
    wait_locked self = Ok (Some it, self')
    /\ cp_inv self' /\ pending self' = q /\ evhndl self' = evhndl self.
Proof.
  intros Hinv Hq.
  destruct (wait_locked_spec self Hinv)
    as [(_ & Hl & _)|(it' & s1 & Hw & _ & Hl & Hi & He)];
    unfold pending in Hq; rewrite Hl in Hq; [done|].
  simpl in Hq. injection Hq as -> Hq. by exists s1.
Qed.

(** [sp_cp_wait] on a port with a waiting event: it returns 0 with the
    oldest event and never consults the poller. *)
Lemma sp_cp_wait_cons H self timeout p it q :
  cp_inv self -> pending self = it :: q ->
  exists self',
    sp_cp_wait H self timeout p = Ok (delivered it, self')
    /\ cp_inv self' /\ pending self' = q.
Proof.
  intros Hinv Hq.
  destruct (wait_pending_cons self it q Hinv Hq) as (s1 & Hw & Hi & Hp & _).
  exists s1. unfold sp_cp_wait. by rewrite Hw.
Qed.

Lemma post_all_pending self ps :
  cp_inv self ->
  exists self',
    post_all self ps = Ok self'
    /\ cp_inv self'
    /\ pending self' = pending self ++ ps
    /\ head self' = head self
    /\ capacity self <= capacity self'.
Proof.
  revert self. induction ps as [|[o a] ps IH]; intros self Hinv; simpl.
  - exists self. rewrite app_nil_r. do 4 (split; [done|]). lia.
  - destruct (post_pending self o a Hinv) as (s1 & Hp & Hi & Hq & Hh & _ & Hc).
    rewrite Hp.
    destruct (IH s1 Hi) as (s2 & Hp2 & Hi2 & Hq2 & Hh2 & Hc2).
    exists s2. split; [done|]. split; [done|].
    split; [|split; [congruence|lia]].
    rewrite Hq2, Hq, <- app_assoc. done.
Qed.

Lemma wait_all_pending H self calls :
  cp_inv self -> length calls = length (pending self) ->
  exists self',
    wait_all H self calls = Ok (delivered <$> pending self, self')
    /\ cp_inv self' /\ pending self' = [].
Proof.
  revert self. induction calls as [|[timeout p] calls IH]; intros self Hinv Hlen.
  - destruct (pending self) eqn:E; [|done]. by exists self.
  - destruct (pending self) as [|it q] eqn:E; [done|].
    destruct (sp_cp_wait_cons H self timeout p it q Hinv E)
      as (s1 & Hw & Hi & Hq).
    destruct (IH s1 Hi) as (s2 & Hw2 & Hi2 & Hq2).
    { rewrite Hq. simpl in Hlen. lia. }
    exists s2. simpl. rewrite Hw. unfold delivered at 1.
    rewrite Hw2, Hq. done.
Qed.

(** Under any interleaving of posts and waits, what has been handed out
    followed by what is waiting is what has been posted, in the order of
    posting: nothing is lost, duplicated or reordered. *)
Lemma history_fifo self posted taken :
  history self posted taken ->
  cp_inv self /\ posted = taken ++ pending self.
Proof.
  induction 1 as [self|self posted taken o a self' _ [IH1 IH2] Hp
                 |self posted taken it self' _ [IH1 IH2] Hw
                 |self posted taken self' _ [IH1 IH2] Hw].
  - split; [apply init_inv|done].
  - destruct (post_pending self o a IH1) as (s1 & Hp1 & Hi & Hq & _).
    assert (s1 = self') as -> by congruence.
    split; [done|]. by rewrite Hq, IH2, app_assoc.
  - destruct (pending self) as [|it' q] eqn:E.
    + rewrite (wait_pending_nil self IH1 E) in Hw. done.
    + destruct (wait_pending_cons self it' q IH1 E) as (s1 & Hw1 & Hi & Hq & _).
      rewrite Hw1 in Hw. injection Hw as -> ->.
      split; [done|]. by rewrite Hq, IH2, <- app_assoc.
  - destruct (pending self) as [|it' q] eqn:E.
    + rewrite (wait_pending_nil self IH1 E) in Hw. injection Hw as <-.
      split; [done|]. by rewrite IH2, ?E.
    + destruct (wait_pending_cons self it' q IH1 E) as (s1 & Hw1 & _).
      rewrite Hw1 in Hw. done.
Qed.

(** ** Frame properties *)

(** The locked section of [sp_cp_wait] writes [head] and the signal
    only. *)
Lemma wait_locked_frame self out self' :
  wait_locked self = Ok (out, self') ->
  tail self' = tail self /\ capacity self' = capacity self
  /\ items self' = items self /\ evhndl self' = evhndl self.
Proof.
  unfold wait_locked.
  destruct (negb (head self =? tail self)); [|by intros [= _ <-]].
  destruct (load (items self) (head self)); try done.
  destruct (capacity self =? 0); [done|].
  rewrite unsignal_if. by intros [= _ <-].
Qed.

Lemma sp_cp_wait_frame H self timeout p rc out self' :
  sp_cp_wait H self timeout p = Ok (rc, out, self') ->
  tail self' = tail self /\ capacity self' = capacity self
  /\ items self' = items self.
Proof.
  unfold sp_cp_wait.
  destruct (wait_locked self) as [[[it|] s1]| |] eqn:E1; try done.
  { intros [= _ _ <-].
    by destruct (wait_locked_frame _ _ _ E1) as (? & ? & ? & _). }
  destruct (wait_locked_frame _ _ _ E1) as (Ht1 & Hc1 & Hi1 & _).
  destruct (_ || _); [intros [= _ _ <-]; done|].
  destruct (negb (p_rc p =? 0)); [done|].
  destruct (negb (p_hndl p =? evhndl s1)); [done|].
  destruct (wait_locked s1) as [[[it|] s2]| |] eqn:E2; try done;
    intros [= _ _ <-];
    destruct (wait_locked_frame _ _ _ E2) as (? & ? & ? & _);
    repeat split; congruence.
Qed.

(** [sp_cp_post] leaves [head] and every slot that holds a waiting event
    as they are. *)
Lemma post_frame self o a self' i :
  cp_inv self -> sp_cp_post self o a = Ok self' -> live self i ->
  head self' = head self
  /\ items self' !! Z.to_nat i = items self !! Z.to_nat i.
Proof.
  intros [Hc Hl Hh Ht _ _].
  destruct self as [ev eh c h t l]; simpl in *.
  unfold sp_cp_post, store, live; simpl.
  replace ((0 <=? t) && (t <? Z.of_nat (length l))) with true
    by tests_lia.
  replace (c =? 0) with false by tests_lia.
  rewrite (next_cursor t c) by lia.
  intros Hpost Hlive.
  assert (Hi : 0 <= i < c /\ i <> t) by (destruct (h <=? t) eqn:E; lia).
  destruct (Z.ltb_spec (t + 1) c); destruct (h =? _);
    rewrite ?memcpy_grow in Hpost by (rewrite ?length_insert; lia);
    rewrite signal_if in Hpost; injection Hpost as <-; simpl;
    (split; [done|]);
    rewrite ?lookup_app_l by (rewrite length_insert; lia);
    apply list_lookup_insert_ne; lia.
Qed.

(** The signal is up exactly when events are waiting. *)
Lemma signal_iff self :
  cp_inv self -> eventfd self = true <-> pending self <> [].
Proof.
  intros Hinv. rewrite (pending_nil_iff self Hinv), (inv_eventfd _ Hinv).
  tests_lia.
Qed.

(** ** The claims about the completion port *)

(** C3: when posts fill the queue past its capacity (64 initially, so for
    instance 65 posts into a fresh queue without a wait in between), every
    post returns, the capacity has grown, no event is lost or reordered by
    the doubling, and the following calls of wait return all events in the
    order in which they were posted. *)
Theorem sp_cp_growth H self ps calls :
  reachable self ->
  capacity self <= Z.of_nat (length (pending self ++ ps)) ->
  length calls = length (pending self ++ ps) ->
  exists self1 self2,
    post_all self ps = Ok self1
    /\ capacity self < capacity self1
    /\ pending self1 = pending self ++ ps
    /\ wait_all H self1 calls = Ok (delivered <$> (pending self ++ ps), self2).
Proof.
  intros Hr Hfull Hlen. apply reachable_inv in Hr.
  destruct (post_all_pending self ps Hr) as (s1 & Hp & Hi & Hq & _ & _).
  destruct (wait_all_pending H s1 calls Hi) as (s2 & Hw & _ & _);
    [congruence|].
  exists s1, s2. split; [done|]. split; [|split; [done|congruence]].
  pose proof (pending_length s1 Hi) as Hlt. rewrite Hq in Hlt. lia.
Qed.

Lemma sp_cp_growth_witness :
  exists self1 self2,
    post_all (sp_cp_init cp0) (events 65) = Ok self1
    /\ capacity (sp_cp_init cp0) < capacity self1
    /\ pending self1 = pending (sp_cp_init cp0) ++ events 65
    /\ wait_all linux_x86_64 self1 (polls linux_x86_64 65)
       = Ok (delivered <$> (pending (sp_cp_init cp0) ++ events 65), self2).
Proof.
  apply (sp_cp_growth linux_x86_64 (sp_cp_init cp0) (events 65)
           (polls linux_x86_64 65)).
  - apply reach_init.
  - vm_compute. discriminate.
  - reflexivity.
Defined.

(** C4: events posted one after the other are returned by successive
    calls of wait in the order in which they were posted, after the events
    that were already waiting; each is returned once, and the queue is
    empty afterwards, so that a further wait is left to the poller and
    returns no event. *)
Theorem sp_cp_fifo H self ps calls :
  reachable self ->
  length calls = length (pending self ++ ps) ->
  exists self1 self2,
    post_all self ps = Ok self1
    /\ wait_all H self1 calls = Ok (delivered <$> (pending self ++ ps), self2)
    /\ pending self2 = []
    /\ forall timeout,
         sp_cp_wait H self2 timeout (poll_timeout H)
         = Ok (- ETIMEDOUT H, None, self2).
Proof.
  intros Hr Hlen. apply reachable_inv in Hr.
  destruct (post_all_pending self ps Hr) as (s1 & Hp & Hi & Hq & _ & _).
  destruct (wait_all_pending H s1 calls Hi) as (s2 & Hw & Hi2 & Hq2);
    [congruence|].
  exists s1, s2. split; [done|]. split; [congruence|]. split; [done|].
  intros timeout. unfold sp_cp_wait.
  rewrite (wait_pending_nil s2 Hi2 Hq2). simpl.
  by rewrite Z.eqb_refl.
Qed.

Lemma sp_cp_fifo_witness :
  exists self1 self2,
    post_all (sp_cp_init cp0) (events 3) = Ok self1
    /\ wait_all linux_x86_64 self1 (polls linux_x86_64 3)
       = Ok (delivered <$> (pending (sp_cp_init cp0) ++ events 3), self2)
    /\ pending self2 = []
    /\ forall timeout,
         sp_cp_wait linux_x86_64 self2 timeout (poll_timeout linux_x86_64)
         = Ok (- ETIMEDOUT linux_x86_64, None, self2).
Proof.
  apply (sp_cp_fifo linux_x86_64 (sp_cp_init cp0) (events 3)
           (polls linux_x86_64 3)).
  - apply reach_init.
  - reflexivity.
Defined.

(** C5: in every state the port can reach, under any interleaving of the
    locked sections of post and wait, the wake-up signal is raised if and
    only if the queue is not empty.  A post returns with the queue
    non-empty and the signal raised, and it is the post that raises it
    exactly when the queue was empty before; the locked section of wait
    lowers it exactly when it takes an event and leaves the queue empty. *)
Theorem sp_cp_signal_iff_nonempty self :
  reachable self ->
  (eventfd self = true <-> pending self <> [])
  /\ (forall o a, exists self',
        sp_cp_post self o a = Ok self'
        /\ reachable self'
        /\ pending self' <> [] /\ eventfd self' = true
        /\ (eventfd self = false /\ eventfd self' = true
            <-> pending self = []))
  /\ (exists out self',
        wait_locked self = Ok (out, self')
        /\ reachable self'
        /\ (eventfd self' = true <-> pending self' <> [])
        /\ (eventfd self = true /\ eventfd self' = false
            <-> out <> None /\ pending self' = [])).
Proof.
  intros Hr. pose proof (reachable_inv self Hr) as Hinv.
  pose proof (signal_iff self Hinv) as Hsig.
  split; [done|]. split.
  - intros o a.
    destruct (post_pending self o a Hinv) as (s1 & Hp & Hi & Hq & _).
    pose proof (signal_iff s1 Hi) as Hsig1.
    assert (Hne : pending s1 <> []).
    { rewrite Hq. by destruct (pending self). }
    exists s1. split; [done|].
    split; [by eapply reach_step, step_post|].
    split; [done|]. split; [by apply Hsig1|].
    destruct (eventfd self), (pending self); intuition congruence.
  - destruct (pending self) as [|it q] eqn:E.
    + exists None, self. split; [by apply wait_pending_nil|].
      split; [done|]. rewrite E. intuition congruence.
    + destruct (wait_pending_cons self it q Hinv E) as (s1 & Hw & Hi & Hq & _).
      pose proof (signal_iff s1 Hi) as Hsig1.
      exists (Some it), s1. split; [done|].
      split; [by eapply reach_step, step_wait|].
      split; [done|].
      destruct (eventfd self), (eventfd s1), (pending s1);
        intuition congruence.
Qed.

Lemma sp_cp_signal_iff_nonempty_witness :
  (eventfd (sp_cp_init cp0) = true <-> pending (sp_cp_init cp0) <> [])
  /\ (forall o a, exists self',
        sp_cp_post (sp_cp_init cp0) o a = Ok self'
        /\ reachable self'
        /\ pending self' <> [] /\ eventfd self' = true
        /\ (eventfd (sp_cp_init cp0) = false /\ eventfd self' = true
            <-> pending (sp_cp_init cp0) = []))
  /\ (exists out self',
        wait_locked (sp_cp_init cp0) = Ok (out, self')
        /\ reachable self'
        /\ (eventfd self' = true <-> pending self' <> [])
        /\ (eventfd (sp_cp_init cp0) = true /\ eventfd self' = false
            <-> out <> None /\ pending self' = [])).
Proof.
  apply (sp_cp_signal_iff_nonempty (sp_cp_init cp0)). apply reach_init.
Defined.

(** C10: post does not move [head] and does not touch a slot that holds a
    waiting event; wait (the whole call, and each of its locked sections)
    does not move [tail] and changes neither the capacity nor the contents
    of the buffer. *)
Theorem sp_cp_frame H self :
  reachable self ->
  (forall o a, exists self',
     sp_cp_post self o a = Ok self'
     /\ head self' = head self
     /\ forall i, live self i ->
          items self' !! Z.to_nat i = items self !! Z.to_nat i)
  /\ (forall timeout p rc out self',
        sp_cp_wait H self timeout p = Ok (rc, out, self') ->
        tail self' = tail self /\ capacity self' = capacity self
        /\ items self' = items self)
  /\ (forall out self',
        wait_locked self = Ok (out, self') ->
        tail self' = tail self /\ capacity self' = capacity self
        /\ items self' = items self).
Proof.
  intros Hr. apply reachable_inv in Hr. split; [|split].
  - intros o a.
    destruct (post_pending self o a Hr) as (s1 & Hp & _ & _ & Hh & _).
    exists s1. split; [done|]. split; [done|].
    intros i Hi. by apply (post_frame self o a s1 i Hr Hp Hi).
  - intros timeout p rc out self'. apply sp_cp_wait_frame.
  - intros out self' Hw.
    by destruct (wait_locked_frame self out self' Hw) as (? & ? & ? & _).
Qed.

(** ** Widths *)

Lemma to_size_t_small H n : 0 <= n <= SIZE_MAX H -> to_size_t H n = n.
Proof. unfold SIZE_MAX, to_size_t. intros Hn. apply Z.mod_small. lia. Qed.

Lemma to_size_t_minus_one H : 0 <= SIZE_MAX H -> to_size_t H (-1) = SIZE_MAX H.
Proof.
  unfold SIZE_MAX, to_size_t. intros Hn. symmetry.
  apply (Z.mod_unique_pos (-1) (2 ^ size_bits H) (-1)); lia.
Qed.

(** ** The claims about the user socket *)

(** [sp_usock_send] when the platform send fails with anything but
    would-block: the test on [errno] sends control to [async], where the
    assertion kills the process; the code that would return [-EINTR] or
    [-ECONNRESET] is not reached. *)
Lemma sp_usock_send_failure_aborts H self buf len flags hndl w e :
  0 < len < SIZE_MAX H ->
  os w (trace w)
     (Sys_send (s self) buf len
        (match MSG_NOSIGNAL H with Some f => f | None => 0 end)) = (-1, e) ->
  e <> EAGAIN H -> e <> EWOULDBLOCK H ->
  sp_usock_send H self buf len flags hndl w = Abort.
Proof.
  intros Hlen Hos He1 He2.
  unfold sp_usock_send, bind, sys.
  replace (len =? 0) with false by tests_lia.
  rewrite Hos.
  rewrite to_size_t_minus_one by lia.
  replace (SIZE_MAX H =? len) with false by tests_lia.
  unfold get_errno; simpl.
  replace (e =? EAGAIN H) with false by tests_lia.
  replace (e =? EWOULDBLOCK H) with false by tests_lia.
  done.
Qed.

(** C1 (the code departs from it): on Linux, a send of one byte that the
    platform fails with ECONNRESET does not return [-ECONNRESET]; the
    process is aborted. *)
Theorem sp_usock_send_connreset_aborts :
  sp_usock_send linux_x86_64 sock3 4096 1 0 0
    (world0 (kernel_answers (-1) (ECONNRESET linux_x86_64)))
  = Abort.
Proof. reflexivity. Qed.

(** The same for EPIPE. *)
Lemma sp_usock_send_epipe_aborts :
  sp_usock_send linux_x86_64 sock3 4096 1 0 0
    (world0 (kernel_answers (-1) (EPIPE linux_x86_64)))
  = Abort.
Proof. reflexivity. Qed.

(** The receive path has the test the right way round: the same failure
    of the platform call is returned as [-ECONNRESET]. *)
Lemma recv_sibling_returns_connreset :
  sp_usock_recv linux_x86_64 sock3 4096 1 0 0
    (world0 (kernel_answers (-1) (ECONNRESET linux_x86_64)))
  = Ok ((- ECONNRESET linux_x86_64, 1),
        {| os := kernel_answers (-1) (ECONNRESET linux_x86_64);
           errno := ECONNRESET linux_x86_64;
           trace := [Sys_recv 3 4096 1 0] |}).
Proof. reflexivity. Qed.

(** When [SOCK_CLOEXEC] is defined, the type a successfully opened socket
    remembers is the requested type with that flag or-ed in; this is the
    value [sp_usock_tune] compares with [SOCK_STREAM]. *)
Lemma sp_usock_init_stored_type H self dom ty proto w rc self' w' cloexec :
  SOCK_CLOEXEC H = Some cloexec ->
  sp_usock_init H self dom ty proto w = Ok ((rc, self'), w') ->
  0 <= s self' ->
  rc = 0 /\ type self' = Z.lor ty cloexec /\ domain self' = dom
  /\ aio self' = NULL.
Proof.
  intros Hc. unfold sp_usock_init, bind, sys. rewrite Hc.
  destruct (os w _ _) as [fd e]; simpl.
  destruct (Z.ltb_spec fd 0) as [Hneg|Hpos].
  - intros [= _ <- _]. simpl. lia.
  - destruct (sp_usock_tune H _ _) as [[[] w1]| |]; [|done..].
    by intros [= <- <- _].
Qed.

(** C2 (the code departs from it): on Linux, where [SOCK_CLOEXEC] is
    defined, opening a TCP socket (AF_INET, SOCK_STREAM) succeeds, but the
    socket remembers the type SOCK_STREAM | SOCK_CLOEXEC, the test in the
    tuning step fails, and TCP_NODELAY is never set: the only calls made
    are [socket] and the two [fcntl]s that switch to non-blocking mode. *)
Theorem sp_usock_init_linux_skips_nodelay :
  exists self' w',
    sp_usock_init linux_x86_64 usock0 (AF_INET linux_x86_64)
      (SOCK_STREAM linux_x86_64) 0 (world0 kernel_ok)
    = Ok ((0, self'), w')
    /\ s self' = 3
    /\ type self' = Z.lor (SOCK_STREAM linux_x86_64) 524288
    /\ trace w' = [Sys_socket 2 524289 0; Sys_fcntl 3 3 0;
                   Sys_fcntl 3 4 2048]
    /\ ~ In (Sys_setsockopt 3 (IPPROTO_TCP linux_x86_64)
               (TCP_NODELAY linux_x86_64) 1) (trace w').
Proof.
  eexists _, _. split; [vm_compute; reflexivity|]. simpl.
  repeat split. intros Hin.
  repeat (destruct Hin as [Hin|Hin]; [discriminate|]). done.
Qed.

(** Where [SOCK_CLOEXEC] is not defined the same call does set
    TCP_NODELAY (last call of the trace). *)
Lemma sp_usock_init_darwin_sets_nodelay :
  exists self' w',
    sp_usock_init darwin usock0 (AF_INET darwin) (SOCK_STREAM darwin) 0
      (world0 kernel_ok)
    = Ok ((0, self'), w')
    /\ type self' = SOCK_STREAM darwin
    /\ trace w' = [Sys_socket 2 1 0; Sys_fcntl 3 2 1;
                   Sys_setsockopt 3 65535 4130 1; Sys_fcntl 3 3 0;
                   Sys_fcntl 3 4 4;
                   Sys_setsockopt 3 (IPPROTO_TCP darwin) (TCP_NODELAY darwin) 1].
Proof. eexists _, _. split; [vm_compute; reflexivity|]. done. Qed.

(** The one length at which the mixed comparison [nbytes == *len]
    misfires: with [*len == SIZE_MAX] a failed read (-1) compares equal to
    the requested length and is reported as success.  No buffer has that
    size, and the theorems below leave this length out. *)
Remark recv_size_max_corner :
  sp_usock_recv linux_x86_64 sock3 4096 (SIZE_MAX linux_x86_64) 0 0
    (world0 (kernel_answers (-1) (ECONNRESET linux_x86_64)))
  = Ok ((0, SIZE_MAX linux_x86_64),
        {| os := kernel_answers (-1) (ECONNRESET linux_x86_64);
           errno := ECONNRESET linux_x86_64;
           trace := [Sys_recv 3 4096 (SIZE_MAX linux_x86_64) 0] |}).
Proof. reflexivity. Qed.

(** C7: [sp_usock_send] and [sp_usock_recv] with a requested length of 0
    return 0 at once, leave the length at 0, and make no system call: the
    world, with its log of calls, is the one they started in. *)
Theorem sp_usock_zero_length H self buf flags hndl w :
  sp_usock_send H self buf 0 flags hndl w = Ok ((0, 0), w)
  /\ sp_usock_recv H self buf 0 flags hndl w = Ok ((0, 0), w).
Proof. split; reflexivity. Qed.

(** C9: [sp_usock_recv] without the SP_USOCK_PARTIAL flag, when the
    platform read returns a positive count smaller than the requested
    length, reaches the assertion under [async]: the process is aborted
    and the caller gets neither success nor an error code. *)
Theorem sp_usock_recv_short_aborts H self buf len flags hndl w nbytes e :
  Z.land flags (SP_USOCK_PARTIAL H) = 0 ->
  len <= SIZE_MAX H ->
  os w (trace w) (Sys_recv (s self) buf len 0) = (nbytes, e) ->
  0 < nbytes < len ->
  sp_usock_recv H self buf len flags hndl w = Abort.
Proof.
  intros Hflag Hlen Hos Hn.
  unfold sp_usock_recv, bind, sys.
  replace (len =? 0) with false by tests_lia.
  rewrite Hos, to_size_t_small by lia.
  replace (nbytes =? len) with false by tests_lia.
  rewrite Hflag. simpl. rewrite andb_false_r.
  replace (nbytes =? 0) with false by tests_lia.
  replace (nbytes <? 0) with false by tests_lia.
  done.
Qed.

Lemma sp_usock_recv_short_aborts_witness :
  sp_usock_recv linux_x86_64 sock3 4096 10 0 0
    (world0 (kernel_answers 4 0)) = Abort.
Proof.
  apply (sp_usock_recv_short_aborts linux_x86_64 sock3 4096 10 0 0
           (world0 (kernel_answers 4 0)) 4 0).
  - reflexivity.
  - vm_compute. discriminate.
  - reflexivity.
  - lia.
Defined.

(** The connection failures are told apart from would-block and from an
    interrupted call. *)
Lemma recv_failure_tests H e :
  errno_distinct H = true -> In e (recv_failures H) ->
  (e =? EAGAIN H) || (e =? EWOULDBLOCK H) = false
  /\ (e =? EINTR H) = false
  /\ (e =? ECONNRESET H) || (e =? ECONNREFUSED H) || (e =? ETIMEDOUT H)
     || (e =? EHOSTUNREACH H) || (e =? ENOTCONN H) = true.
Proof.
  unfold errno_distinct. rewrite forallb_forall. intros Hd Hin.
  specialize (Hd e Hin).
  apply andb_true_iff in Hd as [Hd Hi].
  apply andb_true_iff in Hd as [Ha Hw].
  apply negb_true_iff in Ha, Hw, Hi. rewrite Ha, Hw, Hi.
  split; [done|]. split; [done|].
  simpl in Hin.
  destruct Hin as [<-|[<-|[<-|[<-|[<-|[]]]]]]; rewrite Z.eqb_refl;
    rewrite ?orb_true_r; done.
Qed.

(** X22: for every positive requested length below [SIZE_MAX],
    [sp_usock_recv] returns [-ECONNRESET] when the platform read returns 0
    (the peer closed the connection), and also when it fails with
    ECONNRESET, ECONNREFUSED, ETIMEDOUT, EHOSTUNREACH or ENOTCONN. *)
Theorem sp_usock_recv_connreset H self buf len flags hndl w nbytes e :
  errno_distinct H = true ->
  0 < len < SIZE_MAX H ->
  os w (trace w) (Sys_recv (s self) buf len 0) = (nbytes, e) ->
  nbytes = 0 \/ (nbytes = -1 /\ In e (recv_failures H)) ->
  sp_usock_recv H self buf len flags hndl w
  = Ok ((- ECONNRESET H, len),
        {| os := os w; errno := e;
           trace := trace w ++ [Sys_recv (s self) buf len 0] |}).
Proof.
  intros Hd Hlen Hos Hn.
  unfold sp_usock_recv, bind, sys.
  replace (len =? 0) with false by tests_lia.
  rewrite Hos.
  destruct Hn as [->|[-> Hin]].
  - rewrite to_size_t_small by lia.
    replace (0 =? len) with false by tests_lia. done.
  - rewrite to_size_t_minus_one by lia.
    replace (SIZE_MAX H =? len) with false by tests_lia.
    destruct (recv_failure_tests H e Hd Hin) as (Hwb & Hintr & Hfail).
    unfold get_errno; simpl. by rewrite Hwb, Hintr, Hfail.
Qed.

Lemma sp_usock_recv_connreset_witness :
  sp_usock_recv linux_x86_64 sock3 4096 10 0 0
    (world0 (kernel_answers 0 0))
  = Ok ((-104, 10),
        {| os := kernel_answers 0 0; errno := 0;
           trace := [Sys_recv 3 4096 10 0] |})
  /\ sp_usock_recv linux_x86_64 sock3 4096 10 0 0
       (world0 (kernel_answers (-1) (ECONNREFUSED linux_x86_64)))
     = Ok ((-104, 10),
           {| os := kernel_answers (-1) 111; errno := 111;
              trace := [Sys_recv 3 4096 10 0] |}).
Proof.
  split.
  - apply (sp_usock_recv_connreset linux_x86_64 sock3 4096 10 0 0
             (world0 (kernel_answers 0 0)) 0 0).
    + reflexivity.
    + vm_compute. split; reflexivity.
    + reflexivity.
    + left. reflexivity.
  - apply (sp_usock_recv_connreset linux_x86_64 sock3 4096 10 0 0
             (world0 (kernel_answers (-1) (ECONNREFUSED linux_x86_64)))
             (-1) (ECONNREFUSED linux_x86_64)).
    + reflexivity.
    + vm_compute. split; reflexivity.
    + reflexivity.
    + right. split; [reflexivity | simpl; tauto].
Defined.


(** Registering a registered socket fails the assertion. *)
Lemma register_registered cp usock w :
  aio usock <> NULL -> sp_cp_register_usock cp usock w = Abort.
Proof.
  intros Hreg. unfold sp_cp_register_usock, bind, sp_assert.
  by replace (aio usock =? NULL) with false by tests_lia.
Qed.

(** C8: registering a socket whose back-reference is unset succeeds and
    sets the back-reference to the given port; registering a socket whose
    back-reference is set fails the assertion.  Hence the back-reference
    is set at most once: after a successful registration every further
    one aborts, and no run registers the same socket twice. *)
Theorem sp_cp_register_usock_once cp usock w :
  cp <> NULL ->
  (aio usock = NULL ->
     sp_cp_register_usock cp usock w = Ok (set_aio cp usock, w)
     /\ aio (set_aio cp usock) = cp
     /\ forall cp' w',
          sp_cp_register_usock cp' (set_aio cp usock) w' = Abort)
  /\ (aio usock <> NULL -> sp_cp_register_usock cp usock w = Abort)
  /\ (forall cps r,
        Forall (fun c => c <> NULL) cps ->
        register_all cps usock w = Ok r ->
        (length cps <= 1)%nat).
Proof.
  intros Hcp. split; [|split].
  - intros Hnull. split; [|split; [done|]].
    + unfold sp_cp_register_usock, bind, sp_assert. by rewrite Hnull.
    + intros cp' w'. by apply register_registered.
  - apply register_registered.
  - intros [|c1 [|c2 cps]] r Hall; simpl; [lia..|].
    intros Hrun. exfalso. revert Hrun.
    unfold bind at 1.
    destruct (sp_cp_register_usock c1 usock w) as [[u1 w1]| |] eqn:E1;
      [|done..].
    assert (aio u1 = c1) as Hu1.
    { revert E1. unfold sp_cp_register_usock, bind, sp_assert.
      destruct (aio usock =? NULL); [|done]. by intros [= <- _]. }
    unfold bind.
    rewrite (register_registered c2 u1 w1); [done|].
    rewrite Hu1. by inversion Hall.
Qed.

Lemma sp_cp_register_usock_once_witness :
  (aio sock3 = NULL ->
     sp_cp_register_usock 8192 sock3 (world0 kernel_ok)
     = Ok (set_aio 8192 sock3, world0 kernel_ok)
     /\ aio (set_aio 8192 sock3) = 8192
     /\ forall cp' w',
          sp_cp_register_usock cp' (set_aio 8192 sock3) w' = Abort)
  /\ (aio sock3 <> NULL ->
      sp_cp_register_usock 8192 sock3 (world0 kernel_ok) = Abort)
  /\ (forall cps r,
        Forall (fun c => c <> NULL) cps ->
        register_all cps sock3 (world0 kernel_ok) = Ok r ->
        (length cps <= 1)%nat).
Proof.
  apply (sp_cp_register_usock_once 8192 sock3 (world0 kernel_ok)).
  discriminate.
Defined.

(** Registering the same socket twice, run on concrete data. *)
Example register_twice_aborts :
  register_all [8192; 8192] sock3 (world0 kernel_ok) = Abort.
Proof. reflexivity. Qed.

(** 65 posts into a fresh queue: the 64th post doubles the capacity, and
    the events lie in slots 0 to 64. *)
Example post_65 :
  exists self1,
    post_all (sp_cp_init cp0) (events 65) = Ok self1
    /\ capacity self1 = 128 /\ head self1 = 0 /\ tail self1 = 65
    /\ pending self1 = events 65.
Proof. eexists. split; [vm_compute; reflexivity|]. by vm_compute. Qed.

(** A queue that fills up while its region is wrapped: 40 posts, 39
    waits, then 64 more posts.  The copy puts the wrapped part behind the
    old end of the block, and the order is kept. *)
Example post_wrapped :
  exists s1 out s2 s3,
    post_all (sp_cp_init cp0) (events 40) = Ok s1
    /\ wait_all linux_x86_64 s1 (polls linux_x86_64 39) = Ok (out, s2)
    /\ post_all s2 (events 64) = Ok s3
    /\ capacity s3 = 128 /\ head s3 = 39 /\ tail s3 = 104
    /\ pending s3 = drop 39 (events 40) ++ events 64.
Proof.
  eexists _, _, _, _.
  split; [vm_compute; reflexivity|].
  split; [vm_compute; reflexivity|].
  split; [vm_compute; reflexivity|]. by vm_compute.
Qed.

(* ===================================================================== *)
(** * Part 6: further properties of the code                               *)
(* ===================================================================== *)

(** ** Running a computation backwards *)

Lemma bind_Ok {A B} (m : M A) (k : A -> M B) w b w2 :
  bind m k w = Ok (b, w2) ->
  exists a w1, m w = Ok (a, w1) /\ k a w1 = Ok (b, w2).
Proof.
  unfold bind. destruct (m w) as [[a w1]| |]; [|done..]. by exists a, w1.
Qed.

Lemma ret_Ok {A} (a b : A) w w' : ret a w = Ok (b, w') -> b = a /\ w' = w.
Proof. by intros [= -> ->]. Qed.

Lemma sys_Ok c w r w' :
  sys c w = Ok (r, w') ->
  exists e, os w (trace w) c = (r, e)
            /\ w' = {| os := os w; errno := e; trace := trace w ++ [c] |}.
Proof.
  unfold sys. destruct (os w (trace w) c) as [r0 e].
  intros [= -> <-]. by exists e.
Qed.

Lemma get_errno_Ok w e w' : get_errno w = Ok (e, w') -> e = errno w /\ w' = w.
Proof. by intros [= <- <-]. Qed.

Lemma sp_assert_Ok b w u w' : sp_assert b w = Ok (u, w') -> b = true /\ w' = w.
Proof. unfold sp_assert. destruct b; [|done]. by intros [= _ <-]. Qed.

(** Take a successful run apart, call by call. *)
Ltac run_inv :=
  repeat match goal with
    | Hr : bind _ _ _ = Ok _ |- _ =>
        apply bind_Ok in Hr as (? & ? & ? & ?)
    | Hr : ret _ _ = Ok _ |- _ => apply ret_Ok in Hr as [? ?]; simplify_eq
    | Hr : sys _ _ = Ok _ |- _ => apply sys_Ok in Hr as (? & ? & ?); subst
    | Hr : get_errno _ = Ok _ |- _ =>
        apply get_errno_Ok in Hr as [? ?]; subst
    | Hr : sp_assert _ _ = Ok _ |- _ =>
        apply sp_assert_Ok in Hr as [? ?]; subst
    | Hr : errno_assert _ _ = Ok _ |- _ =>
        apply sp_assert_Ok in Hr as [? ?]; subst
    | Hr : async _ _ = Ok _ |- _ =>
        unfold async in Hr
    | Hr : (if ?c then _ else _) _ = Ok _ |- _ => destruct c eqn:?
    | Hr : match ?o with Some _ => _ | None => _ end _ = Ok _ |- _ =>
        destruct o eqn:?
    | Hr : Abort = Ok _ |- _ => discriminate Hr
    end.

(** Find a call in a list of calls that is written out. *)
Ltac find_in := simpl; solve [ repeat (first [ left; reflexivity | right ]) ].

(** The calls [sp_usock_tune] makes when it returns. *)
Lemma sp_usock_tune_calls H self w u w' :
  sp_usock_tune H self w = Ok (u, w') ->
  exists t,
    trace w' = trace w ++ t /\ os w' = os w
    /\ (exists flags,
          In (Sys_fcntl (s self) (F_SETFL H) (Z.lor flags (O_NONBLOCK H))) t)
    /\ (forall v, SO_NOSIGPIPE H = Some v ->
          In (Sys_setsockopt (s self) (SOL_SOCKET H) v 1) t)
    /\ (forall v, IPV6_V6ONLY H = Some v -> domain self = AF_INET6 H ->
          In (Sys_setsockopt (s self) (IPPROTO_IPV6 H) v 0) t)
    /\ (((domain self =? AF_INET H) || (domain self =? AF_INET6 H))
        && (type self =? SOCK_STREAM H) = true ->
          In (Sys_setsockopt (s self) (IPPROTO_TCP H) (TCP_NODELAY H) 1) t).
Proof.
  unfold sp_usock_tune. intros Hrun. run_inv; simpl.
  all: rewrite <- ?app_assoc; simpl.
  all: eexists; split; [reflexivity|]; split; [done|].
  all: split; [eexists; find_in|].
  all: repeat match goal with |- _ /\ _ => split end; intros; simplify_eq.
  all: first [ find_in | congruence | exfalso; lia ].
Qed.

(** ** More about the completion port *)

Lemma post_all_reachable self ps self' :
  reachable self -> post_all self ps = Ok self' -> reachable self'.
Proof.
  revert self. induction ps as [|[o a] ps IH]; simpl; intros self Hr.
  - by intros [= <-].
  - destruct (sp_cp_post self o a) as [s1| |] eqn:E; [|done..].
    apply IH. by eapply reach_step, step_post.
Qed.

Lemma after_posts_reachable n : reachable (after_posts n).
Proof.
  unfold after_posts.
  destruct (post_all _ _) eqn:E; [|apply reach_init..].
  eapply post_all_reachable; [apply reach_init|done].
Qed.

(** The number of waiting events, from the cursors. *)
Lemma pending_count self :
  cp_inv self ->
  Z.of_nat (length (pending self))
  = if head self <=? tail self then tail self - head self
    else tail self - head self + capacity self.
Proof.
  intros Hinv. rewrite <- (length_fmap Some (pending self)).
  rewrite <- live_slots_pending by done.
  destruct Hinv as [Hc Hl Hh Ht _ _]. unfold live_slots.
  destruct (Z.leb_spec (head self) (tail self)).
  - rewrite length_take, length_drop. lia.
  - rewrite length_app, length_take, length_drop. lia.
Qed.

(** X1: the capacity of a port is 64 doubled some number of times. *)
Theorem sp_cp_capacity_doubling_sequence self :
  reachable self ->
  exists k : nat, capacity self = SP_CP_INITIAL_CAPACITY * 2 ^ Z.of_nat k.
Proof.
  induction 1 as [self|self self' Hr [k IH] Hstep].
  - exists 0%nat. reflexivity.
  - destruct Hstep as [self o a self' Hpost|self out self' Hwait].
    + destruct (post_spec self o a (reachable_inv self Hr))
        as (s1 & Hs1 & _ & _ & _ & _ & Hc).
      assert (s1 = self') as -> by congruence.
      destruct (head self =? _); destruct Hc as [Hc _].
      * exists (S k). rewrite Hc, IH, Nat2Z.inj_succ, Z.pow_succ_r; lia.
      * exists k. congruence.
    + exists k. destruct (wait_locked_frame _ _ _ Hwait) as (_ & Hc & _).
      congruence.
Qed.

Lemma sp_cp_capacity_doubling_sequence_witness :
  exists k : nat,
    capacity (after_posts 200) = SP_CP_INITIAL_CAPACITY * 2 ^ Z.of_nat k.
Proof.
  apply (sp_cp_capacity_doubling_sequence (after_posts 200)).
  apply after_posts_reachable.
Defined.

(** X2: the number of waiting events is the distance from [head] to
    [tail] modulo the capacity, and one slot of the block always stays
    free. *)
Theorem sp_cp_occupancy self :
  reachable self ->
  Z.of_nat (length (pending self))
  = (tail self - head self) mod capacity self
  /\ Z.of_nat (length (pending self)) <= capacity self - 1.
Proof.
  intros Hr. pose proof (reachable_inv self Hr) as Hinv.
  rewrite (pending_count self Hinv).
  destruct Hinv as [Hc _ Hh Ht _ _].
  destruct (Z.leb_spec (head self) (tail self)).
  - rewrite Z.mod_small by lia. lia.
  - split; [|lia].
    apply (Z.mod_unique_pos _ _ (-1)); lia.
Qed.

Lemma sp_cp_occupancy_witness :
  Z.of_nat (length (pending (after_posts 70)))
  = (tail (after_posts 70) - head (after_posts 70))
      mod capacity (after_posts 70)
  /\ Z.of_nat (length (pending (after_posts 70)))
     <= capacity (after_posts 70) - 1.
Proof.
  apply (sp_cp_occupancy (after_posts 70)). apply after_posts_reachable.
Defined.

(** X3: a post doubles the capacity exactly when the queue already holds
    capacity - 1 events, that is when no slot but the free one is left;
    otherwise the capacity stays as it is. *)
Theorem sp_cp_post_grows_iff_full self o a :
  reachable self ->
  exists self',
    sp_cp_post self o a = Ok self'
    /\ (if Z.of_nat (length (pending self)) =? capacity self - 1
        then capacity self' = capacity self * 2
        else capacity self' = capacity self).
Proof.
  intros Hr. pose proof (reachable_inv self Hr) as Hinv.
  destruct (post_spec self o a Hinv) as (s1 & Hs1 & _ & _ & _ & _ & Hc).
  exists s1. split; [done|].
  rewrite (pending_count self Hinv).
  destruct Hinv as [Hcap _ Hh Ht _ _].
  rewrite (next_cursor (tail self) (capacity self)) in Hc by lia.
  destruct (Z.ltb_spec (tail self + 1) (capacity self));
    match type of Hc with
    | if ?c then _ else _ => destruct c eqn:E
    end;
    destruct Hc as [Hc _];
    destruct (Z.leb_spec (head self) (tail self));
    destruct (_ =? capacity self - 1) eqn:E2; lia.
Qed.

Lemma sp_cp_post_grows_iff_full_witness :
  exists self',
    sp_cp_post (after_posts 63) 7 8 = Ok self'
    /\ (if Z.of_nat (length (pending (after_posts 63)))
           =? capacity (after_posts 63) - 1
        then capacity self' = capacity (after_posts 63) * 2
        else capacity self' = capacity (after_posts 63)).
Proof.
  apply (sp_cp_post_grows_iff_full (after_posts 63) 7 8).
  apply after_posts_reachable.
Defined.

(** X4: under any interleaving of posts and of the locked sections of
    wait, the events handed out so far followed by the events still
    waiting are the events posted so far, in the order of posting. *)
Theorem sp_cp_interleaved_fifo self posted taken :
  history self posted taken ->
  posted = taken ++ pending self.
Proof. intros Hh. by destruct (history_fifo self posted taken Hh). Qed.

Lemma sp_cp_interleaved_fifo_witness :
  ([] ++ [ {| op := 5; arg := 50 |} ]) ++ [ {| op := 6; arg := 60 |} ]
  = ([] ++ [ {| op := 5; arg := 50 |} ])
    ++ pending {| eventfd := true; evhndl := 4096; capacity := 64;
                  head := 1; tail := 2;
                  items := <[1%nat := Some {| op := 6; arg := 60 |}]>
                             (<[0%nat := Some {| op := 5; arg := 50 |}]>
                                (sp_alloc 64)) |}.
Proof.
  apply (sp_cp_interleaved_fifo
           {| eventfd := true; evhndl := 4096; capacity := 64;
              head := 1; tail := 2;
              items := <[1%nat := Some {| op := 6; arg := 60 |}]>
                         (<[0%nat := Some {| op := 5; arg := 50 |}]>
                            (sp_alloc 64)) |}).
  eapply hist_post;
    [eapply hist_take;
       [eapply hist_post; [apply (hist_init cp0)|vm_compute; reflexivity]
       |vm_compute; reflexivity]
    |vm_compute; reflexivity].
Defined.

(** A whole call of [sp_cp_wait] is made of steps of the port. *)
Lemma sp_cp_wait_reachable H self timeout p rc out self' :
  reachable self -> sp_cp_wait H self timeout p = Ok (rc, out, self') ->
  reachable self'.
Proof.
  intros Hr. unfold sp_cp_wait.
  destruct (wait_locked self) as [[[it|] s1]| |] eqn:E1; try done.
  { intros [= _ _ <-]. by eapply reach_step, step_wait. }
  assert (reachable s1) as Hr1 by (by eapply reach_step, step_wait).
  destruct (_ || _); [by intros [= _ _ <-]|].
  destruct (negb (p_rc p =? 0)); [done|].
  destruct (negb (p_hndl p =? evhndl s1)); [done|].
  destruct (wait_locked s1) as [[[it|] s2]| |] eqn:E2; try done;
    intros [= _ _ <-]; by eapply reach_step, step_wait.
Qed.

Lemma wait_all_reachable H self calls outs self' :
  reachable self -> wait_all H self calls = Ok (outs, self') ->
  reachable self'.
Proof.
  revert self outs. induction calls as [|[timeout p] calls IH]; simpl;
    intros self outs Hr.
  - by intros [= _ <-].
  - destruct (sp_cp_wait H self timeout p) as [[[rc out] s1]| |] eqn:E;
      [|done..].
    destruct (wait_all H s1 calls) as [[outs' s2]| |] eqn:E2; [|done..].
    intros [= _ <-]. eapply IH; [|done].
    by eapply sp_cp_wait_reachable.
Qed.

Lemma wrapped_full_reachable : reachable wrapped_full.
Proof.
  unfold wrapped_full.
  destruct (post_all (sp_cp_init cp0) (events 40)) as [s1| |] eqn:E1;
    [|apply reach_init..].
  assert (reachable s1) as Hr1
    by (eapply post_all_reachable; [apply reach_init|done]).
  destruct (wait_all _ s1 _) as [[outs s2]| |] eqn:E2; [|done..].
  assert (reachable s2) as Hr2 by (by eapply wait_all_reachable).
  destruct (post_all s2 _) as [s3| |] eqn:E3; [|done..].
  by eapply post_all_reachable.
Qed.

(** The frame property of post and wait at a port that holds 63 events,
    wrapped around the end of the block: slots 39 to 63 and 0 to 37 hold
    waiting events (the tail slot 38 does not), so a post has stored
    events to preserve and a wait has an event to take. *)
Lemma sp_cp_frame_witness :
  (length (pending wrapped_full) = 63%nat
   /\ live wrapped_full 39 /\ live wrapped_full 63
   /\ live wrapped_full 0 /\ live wrapped_full 37
   /\ ~ live wrapped_full 38)
  /\ (forall o a, exists self',
        sp_cp_post wrapped_full o a = Ok self'
        /\ head self' = head wrapped_full
        /\ forall i, live wrapped_full i ->
             items self' !! Z.to_nat i = items wrapped_full !! Z.to_nat i)
  /\ (forall timeout p rc out self',
        sp_cp_wait linux_x86_64 wrapped_full timeout p
        = Ok (rc, out, self') ->
        tail self' = tail wrapped_full
        /\ capacity self' = capacity wrapped_full
        /\ items self' = items wrapped_full)
  /\ (forall out self',
        wait_locked wrapped_full = Ok (out, self') ->
        tail self' = tail wrapped_full
        /\ capacity self' = capacity wrapped_full
        /\ items self' = items wrapped_full).
Proof.
  split.
  - assert (Hh : head wrapped_full = 39) by (vm_compute; reflexivity).
    assert (Ht : tail wrapped_full = 38) by (vm_compute; reflexivity).
    assert (Hc : capacity wrapped_full = 64) by (vm_compute; reflexivity).
    split; [vm_compute; reflexivity|].
    unfold live. rewrite Hh, Ht, Hc. simpl. lia.
  - apply (sp_cp_frame linux_x86_64 wrapped_full).
    apply wrapped_full_reachable.
Defined.

(** X5: the doubling step.  When a post takes the last free slot, the
    capacity doubles, [head] stays, and afterwards the waiting events,
    whether they were wrapped around the end of the block or not, lie in
    one stretch from [head] to the new [tail], the posted event last. *)
Theorem sp_cp_post_doubling self o a :
  reachable self ->
  head self = Z.rem (tail self + 1) (capacity self) ->
  exists self',
    sp_cp_post self o a = Ok self'
    /\ capacity self' = capacity self * 2
    /\ head self' = head self
    /\ head self' < tail self' < capacity self'
    /\ live_slots self'
       = take (Z.to_nat (tail self' - head self'))
           (drop (Z.to_nat (head self')) (items self'))
    /\ pending self' = pending self ++ [{| op := o; arg := a |}].
Proof.
  intros Hr. apply post_doubling_linearizes. by apply reachable_inv.
Qed.

Lemma sp_cp_post_doubling_witness :
  exists self',
    sp_cp_post wrapped_full 7 8 = Ok self'
    /\ capacity self' = capacity wrapped_full * 2
    /\ head self' = head wrapped_full
    /\ head self' < tail self' < capacity self'
    /\ live_slots self'
       = take (Z.to_nat (tail self' - head self'))
           (drop (Z.to_nat (head self')) (items self'))
    /\ pending self' = pending wrapped_full ++ [{| op := 7; arg := 8 |}].
Proof.
  apply (sp_cp_post_doubling wrapped_full 7 8).
  - apply wrapped_full_reachable.
  - vm_compute. reflexivity.
Defined.

(** X6: what a call of [sp_cp_wait] that returns has done.  If it hands
    out an event, it returns 0 and the event is the oldest waiting one,
    removed from the queue.  If it hands out none, the queue was empty, the
    port is untouched and the return value is [-ETIMEDOUT] or [-EINTR]. *)
Theorem sp_cp_wait_result H self timeout p rc out self' :
  reachable self ->
  sp_cp_wait H self timeout p = Ok (rc, out, self') ->
  match out with
  | Some it => rc = 0 /\ pending self = it :: pending self'
  | None => self' = self /\ pending self = []
            /\ (rc = - ETIMEDOUT H \/ rc = - EINTR H)
  end.
Proof.
  intros Hr. pose proof (reachable_inv self Hr) as Hinv.
  destruct (pending self) as [|it q] eqn:E.
  - unfold sp_cp_wait. rewrite (wait_pending_nil self Hinv E).
    destruct (Z.eqb_spec (p_rc p) (- ETIMEDOUT H)); simpl.
    { intros [= <- <- <-]. auto. }
    destruct (Z.eqb_spec (p_rc p) (- EINTR H)); simpl.
    { intros [= <- <- <-]. auto. }
    destruct (negb (p_rc p =? 0)); [done|].
    destruct (negb (p_hndl p =? evhndl self)); [done|].
    rewrite (wait_pending_nil self Hinv E).
    intros [= <- <- <-]. auto.
  - destruct (sp_cp_wait_cons H self timeout p it q Hinv E)
      as (s1 & Hw & _ & Hq).
    rewrite Hw. unfold delivered. intros [= <- <- <-]. by rewrite Hq.
Qed.

Lemma sp_cp_wait_result_witness :
  0 = 0 /\ pending (after_posts 2)
          = {| op := 0; arg := 1000 |}
            :: pending {| eventfd := true; evhndl := 4096; capacity := 64;
                          head := 1; tail := 2;
                          items := items (after_posts 2) |}.
Proof.
  apply (sp_cp_wait_result linux_x86_64 (after_posts 2) 100
           (poll_timeout linux_x86_64) 0 (Some {| op := 0; arg := 1000 |})).
  - apply after_posts_reachable.
  - vm_compute. reflexivity.
Defined.

(** X7: [sp_cp_wait] never reads outside the block or an unwritten slot,
    and it aborts in one situation only: the queue is empty and the poller
    comes back with something other than a timeout, an interruption or
    the wake-up signal of this port. *)
Theorem sp_cp_wait_abort_iff H self timeout p :
  reachable self ->
  sp_cp_wait H self timeout p <> Undef
  /\ (sp_cp_wait H self timeout p = Abort
      <-> pending self = []
          /\ p_rc p <> - ETIMEDOUT H /\ p_rc p <> - EINTR H
          /\ (p_rc p <> 0 \/ p_hndl p <> evhndl self)).
Proof.
  intros Hr. pose proof (reachable_inv self Hr) as Hinv.
  destruct (pending self) as [|it q] eqn:E.
  - unfold sp_cp_wait. rewrite (wait_pending_nil self Hinv E).
    destruct (Z.eqb_spec (p_rc p) (- ETIMEDOUT H)); simpl.
    { split; [done|]. split; [done|]. intros (_ & ? & _). done. }
    destruct (Z.eqb_spec (p_rc p) (- EINTR H)); simpl.
    { split; [done|]. split; [done|]. intros (_ & _ & ? & _). done. }
    destruct (Z.eqb_spec (p_rc p) 0); simpl.
    2:{ split; [done|]. split; [|done]. auto. }
    destruct (Z.eqb_spec (p_hndl p) (evhndl self)); simpl.
    2:{ split; [done|]. split; [|done]. auto. }
    rewrite (wait_pending_nil self Hinv E).
    split; [done|]. split; [done|]. intros (_ & _ & _ & [?|?]); done.
  - destruct (sp_cp_wait_cons H self timeout p it q Hinv E) as (s1 & Hw & _).
    rewrite Hw. split; [done|]. split; [done|]. by intros [? _].
Qed.

Lemma sp_cp_wait_abort_iff_witness :
  sp_cp_wait linux_x86_64 (sp_cp_init cp0) 100
    {| p_rc := 0; p_event := 1; p_hndl := 555 |} <> Undef
  /\ (sp_cp_wait linux_x86_64 (sp_cp_init cp0) 100
        {| p_rc := 0; p_event := 1; p_hndl := 555 |} = Abort
      <-> pending (sp_cp_init cp0) = []
          /\ 0 <> - ETIMEDOUT linux_x86_64 /\ 0 <> - EINTR linux_x86_64
          /\ (0 <> 0 \/ 555 <> evhndl (sp_cp_init cp0))).
Proof.
  apply (sp_cp_wait_abort_iff linux_x86_64 (sp_cp_init cp0) 100
           {| p_rc := 0; p_event := 1; p_hndl := 555 |}).
  apply reach_init.
Defined.

(** ** More about the user socket *)

(** A successful run of [sp_usock_init], taken apart: the handle is what
    [socket] returned for the requested domain and protocol and the type
    with SOCK_CLOEXEC or-ed in where that is defined; then, where it is
    not but FD_CLOEXEC is, comes the [fcntl] that sets it; then the tuning
    step runs on the new socket. *)
Lemma sp_usock_init_success H self dom ty proto w rc self' w' :
  sp_usock_init H self dom ty proto w = Ok ((rc, self'), w') ->
  0 <= s self' ->
  let ty' := match SOCK_CLOEXEC H with
             | Some cloexec => Z.lor ty cloexec
             | None => ty
             end in
  rc = 0
  /\ self' = {| s := s self'; domain := dom; type := ty'; protocol := proto;
               aio := NULL |}
  /\ exists e w1 w2,
       os w (trace w) (Sys_socket dom ty' proto) = (s self', e)
       /\ trace w1 = trace w ++ [Sys_socket dom ty' proto]
       /\ trace w2
          = trace w1
            ++ match SOCK_CLOEXEC H, FD_CLOEXEC H with
               | None, Some fd_cloexec =>
                   [Sys_fcntl (s self') (F_SETFD H) fd_cloexec]
               | _, _ => []
               end
       /\ sp_usock_tune H self' w2 = Ok (tt, w').
Proof.
  unfold sp_usock_init. cbv zeta. intros Hrun Hs.
  apply bind_Ok in Hrun as (fd & w1 & Hsock & Hrun).
  apply sys_Ok in Hsock as (e & Hos & ->).
  destruct (Z.ltb_spec fd 0) as [Hneg|Hpos].
  { run_inv. simpl in Hs. lia. }
  apply bind_Ok in Hrun as ([] & w2 & Hclo & Hrun).
  apply bind_Ok in Hrun as ([] & w3 & Htune & Hrun).
  apply ret_Ok in Hrun as [[= -> ->] ->]. simpl.
  split; [done|]. split; [done|].
  exists e, (after_call w (Sys_socket dom
                             match SOCK_CLOEXEC H with
                             | Some cloexec => Z.lor ty cloexec
                             | None => ty
                             end proto) e), w2.
  split; [done|]. split; [done|]. split; [|done].
  destruct (SOCK_CLOEXEC H), (FD_CLOEXEC H); run_inv; simpl;
    by rewrite ?app_nil_r.
Qed.

(** When the test for a TCP socket fails, the tuning step does not touch
    TCP_NODELAY. *)
Lemma sp_usock_tune_no_nodelay H self w u w' :
  sp_usock_tune H self w = Ok (u, w') ->
  type self <> SOCK_STREAM H ->
  SOL_SOCKET H <> IPPROTO_TCP H ->
  TCP_NODELACK H <> Some (TCP_NODELAY H) ->
  exists t,
    trace w' = trace w ++ t
    /\ ~ In (Sys_setsockopt (s self) (IPPROTO_TCP H) (TCP_NODELAY H) 1) t.
Proof.
  unfold sp_usock_tune. intros Hrun Hty Hlevel Hack. run_inv; simpl.
  all: try match goal with
         | Hb : _ && (type _ =? SOCK_STREAM _) = true |- _ =>
             apply andb_true_iff in Hb as [_ Hb]; apply Z.eqb_eq in Hb;
             contradiction
         end.
  all: rewrite <- ?app_assoc; simpl.
  all: eexists; split; [reflexivity|].
  all: intros Hin; simpl in Hin.
  all: repeat (destruct Hin as [Hin|Hin]; [simplify_eq; congruence|]).
  all: done.
Qed.

(** X8: every socket [sp_usock_init] hands out is non-blocking and
    unregistered.  When init succeeds it returns 0, the socket carries the
    requested domain and protocol and a null back-reference, and among the
    calls made is the [fcntl] that sets O_NONBLOCK on the new handle. *)
Theorem sp_usock_init_nonblocking H self dom ty proto w rc self' w' :
  sp_usock_init H self dom ty proto w = Ok ((rc, self'), w') ->
  0 <= s self' ->
  rc = 0 /\ domain self' = dom /\ protocol self' = proto
  /\ aio self' = NULL
  /\ exists t flags,
       trace w' = trace w ++ t
       /\ In (Sys_fcntl (s self') (F_SETFL H) (Z.lor flags (O_NONBLOCK H))) t.
Proof.
  intros Hrun Hs.
  destruct (sp_usock_init_success _ _ _ _ _ _ _ _ _ Hrun Hs)
    as (-> & Hself & e & w1 & w2 & _ & Hw1 & Hw2 & Htune).
  split; [done|]. rewrite Hself at 1 2 3. simpl.
  split; [done|]. split; [done|]. split; [done|].
  apply sp_usock_tune_calls in Htune
    as (t & Ht & _ & (flags & Hin) & _).
  eexists _, flags. split.
  - rewrite Ht, Hw2, Hw1, <- !app_assoc. reflexivity.
  - apply in_or_app. right. apply in_or_app. by right.
Qed.

Lemma sp_usock_init_nonblocking_witness :
  0 = 0 /\ 2 = AF_INET linux_x86_64 /\ 0 = 0 /\ NULL = NULL
  /\ exists t flags,
       [Sys_socket 2 524289 0; Sys_fcntl 3 3 0; Sys_fcntl 3 4 2048]
       = [] ++ t
       /\ In (Sys_fcntl 3 (F_SETFL linux_x86_64)
                (Z.lor flags (O_NONBLOCK linux_x86_64))) t.
Proof.
  apply (sp_usock_init_nonblocking linux_x86_64 usock0
           (AF_INET linux_x86_64) (SOCK_STREAM linux_x86_64) 0
           (world0 kernel_ok) 0
           {| s := 3; domain := 2; type := 524289; protocol := 0;
              aio := NULL |}
           {| os := kernel_ok; errno := 0;
              trace := [Sys_socket 2 524289 0; Sys_fcntl 3 3 0;
                        Sys_fcntl 3 4 2048] |}).
  - vm_compute. reflexivity.
  - simpl. lia.
Defined.

(** X9: close-on-exec is asked for wherever the platform can give it.
    Where SOCK_CLOEXEC is defined the socket is opened with that flag;
    where it is not but FD_CLOEXEC is, the call that follows [socket] at
    once is the [fcntl] that sets FD_CLOEXEC on the new handle. *)
Theorem sp_usock_init_cloexec H self dom ty proto w rc self' w' :
  sp_usock_init H self dom ty proto w = Ok ((rc, self'), w') ->
  0 <= s self' ->
  exists t,
    match SOCK_CLOEXEC H, FD_CLOEXEC H with
    | Some cloexec, _ =>
        trace w' = trace w ++ Sys_socket dom (Z.lor ty cloexec) proto :: t
    | None, Some fd_cloexec =>
        trace w' = trace w ++ Sys_socket dom ty proto
                     :: Sys_fcntl (s self') (F_SETFD H) fd_cloexec :: t
    | None, None =>
        trace w' = trace w ++ Sys_socket dom ty proto :: t
    end.
Proof.
  intros Hrun Hs.
  destruct (sp_usock_init_success _ _ _ _ _ _ _ _ _ Hrun Hs)
    as (_ & _ & e & w1 & w2 & _ & Hw1 & Hw2 & Htune).
  apply sp_usock_tune_calls in Htune as (t & Ht & _).
  exists t. rewrite Ht, Hw2, Hw1.
  destruct (SOCK_CLOEXEC H), (FD_CLOEXEC H); rewrite <- !app_assoc; done.
Qed.

Lemma sp_usock_init_cloexec_witness :
  exists t,
    [Sys_socket 2 1 0; Sys_fcntl 3 2 1; Sys_setsockopt 3 65535 4130 1;
     Sys_fcntl 3 3 0; Sys_fcntl 3 4 4; Sys_setsockopt 3 6 1 1]
    = [] ++ Sys_socket (AF_INET darwin) (SOCK_STREAM darwin) 0
         :: Sys_fcntl 3 (F_SETFD darwin) 1 :: t.
Proof.
  apply (sp_usock_init_cloexec darwin usock0 (AF_INET darwin)
           (SOCK_STREAM darwin) 0 (world0 kernel_ok) 0
           {| s := 3; domain := 2; type := 1; protocol := 0; aio := NULL |}
           {| os := kernel_ok; errno := 0;
              trace := [Sys_socket 2 1 0; Sys_fcntl 3 2 1;
                        Sys_setsockopt 3 65535 4130 1; Sys_fcntl 3 3 0;
                        Sys_fcntl 3 4 4; Sys_setsockopt 3 6 1 1] |}).
  - vm_compute. reflexivity.
  - simpl. lia.
Defined.

(** X10: where SOCK_CLOEXEC is not defined, every TCP socket (AF_INET or
    AF_INET6, SOCK_STREAM) that init opens has TCP_NODELAY set. *)
Theorem sp_usock_init_nodelay_without_cloexec H self dom proto w rc self' w' :
  SOCK_CLOEXEC H = None ->
  dom = AF_INET H \/ dom = AF_INET6 H ->
  sp_usock_init H self dom (SOCK_STREAM H) proto w = Ok ((rc, self'), w') ->
  0 <= s self' ->
  exists t,
    trace w' = trace w ++ t
    /\ In (Sys_setsockopt (s self') (IPPROTO_TCP H) (TCP_NODELAY H) 1) t.
Proof.
  intros Hclo Hdom Hrun Hs.
  destruct (sp_usock_init_success _ _ _ _ _ _ _ _ _ Hrun Hs)
    as (_ & Hself & e & w1 & w2 & _ & Hw1 & Hw2 & Htune).
  rewrite Hclo in Hself.
  apply sp_usock_tune_calls in Htune as (t & Ht & _ & _ & _ & _ & Hin).
  eexists. split.
  - rewrite Ht, Hw2, Hw1, <- !app_assoc. reflexivity.
  - apply in_or_app. right. apply in_or_app. right. apply Hin.
    rewrite Hself. simpl. rewrite Z.eqb_refl, andb_true_r.
    destruct Hdom as [->| ->]; rewrite Z.eqb_refl; by rewrite ?orb_true_r.
Qed.

Lemma sp_usock_init_nodelay_without_cloexec_witness :
  exists t,
    [Sys_socket 2 1 0; Sys_fcntl 3 2 1; Sys_setsockopt 3 65535 4130 1;
     Sys_fcntl 3 3 0; Sys_fcntl 3 4 4; Sys_setsockopt 3 6 1 1]
    = [] ++ t
    /\ In (Sys_setsockopt 3 (IPPROTO_TCP darwin) (TCP_NODELAY darwin) 1) t.
Proof.
  apply (sp_usock_init_nodelay_without_cloexec darwin usock0
           (AF_INET darwin) 0 (world0 kernel_ok) 0
           {| s := 3; domain := 2; type := 1; protocol := 0; aio := NULL |}
           {| os := kernel_ok; errno := 0;
              trace := [Sys_socket 2 1 0; Sys_fcntl 3 2 1;
                        Sys_setsockopt 3 65535 4130 1; Sys_fcntl 3 3 0;
                        Sys_fcntl 3 4 4; Sys_setsockopt 3 6 1 1] |}).
  - reflexivity.
  - left. reflexivity.
  - vm_compute. reflexivity.
  - simpl. lia.
Defined.

(** X11: where SOCK_CLOEXEC is defined and is a flag that SOCK_STREAM does
    not contain, no socket opened as SOCK_STREAM ever gets TCP_NODELAY:
    the stored type is never equal to SOCK_STREAM.  (The option constants
    are distinct: SOL_SOCKET is not IPPROTO_TCP, TCP_NODELACK is not
    TCP_NODELAY.) *)
Theorem sp_usock_init_cloexec_skips_nodelay H self dom proto w rc self' w'
    cloexec :
  SOCK_CLOEXEC H = Some cloexec ->
  Z.lor (SOCK_STREAM H) cloexec <> SOCK_STREAM H ->
  SOL_SOCKET H <> IPPROTO_TCP H ->
  TCP_NODELACK H <> Some (TCP_NODELAY H) ->
  sp_usock_init H self dom (SOCK_STREAM H) proto w = Ok ((rc, self'), w') ->
  0 <= s self' ->
  type self' <> SOCK_STREAM H
  /\ exists t,
       trace w' = trace w ++ t
       /\ ~ In (Sys_setsockopt (s self') (IPPROTO_TCP H) (TCP_NODELAY H) 1) t.
Proof.
  intros Hclo Hflag Hlevel Hack Hrun Hs.
  destruct (sp_usock_init_success _ _ _ _ _ _ _ _ _ Hrun Hs)
    as (_ & Hself & e & w1 & w2 & _ & Hw1 & Hw2 & Htune).
  rewrite Hclo in Hself, Hw2. rewrite app_nil_r in Hw2.
  assert (Hty : type self' <> SOCK_STREAM H) by (by rewrite Hself).
  split; [done|].
  apply sp_usock_tune_no_nodelay in Htune as (t & Ht & Hnin); try done.
  eexists. split.
  - rewrite Ht, Hw2, Hw1, <- !app_assoc. reflexivity.
  - intros [Hin|Hin]; [discriminate|]. by apply Hnin.
Qed.

Lemma sp_usock_init_cloexec_skips_nodelay_witness :
  524289 <> SOCK_STREAM linux_x86_64
  /\ exists t,
       [Sys_socket 10 524289 0; Sys_fcntl 3 3 0; Sys_fcntl 3 4 2048;
        Sys_setsockopt 3 41 26 0]
       = [] ++ t
       /\ ~ In (Sys_setsockopt 3 (IPPROTO_TCP linux_x86_64)
                  (TCP_NODELAY linux_x86_64) 1) t.
Proof.
  apply (sp_usock_init_cloexec_skips_nodelay linux_x86_64 usock0
           (AF_INET6 linux_x86_64) 0 (world0 kernel_ok) 0
           {| s := 3; domain := 10; type := 524289; protocol := 0;
              aio := NULL |}
           {| os := kernel_ok; errno := 0;
              trace := [Sys_socket 10 524289 0; Sys_fcntl 3 3 0;
                        Sys_fcntl 3 4 2048; Sys_setsockopt 3 41 26 0] |}
           524288).
  - reflexivity.
  - vm_compute. discriminate.
  - vm_compute. discriminate.
  - discriminate.
  - vm_compute. reflexivity.
  - simpl. lia.
Defined.

(** X12: on an IPv6 socket, where IPV6_V6ONLY is defined, init switches it
    off, so that the socket also serves IPv4-mapped addresses. *)
Theorem sp_usock_init_v6_mapping H self ty proto w rc self' w' v6only :
  IPV6_V6ONLY H = Some v6only ->
  sp_usock_init H self (AF_INET6 H) ty proto w = Ok ((rc, self'), w') ->
  0 <= s self' ->
  exists t,
    trace w' = trace w ++ t
    /\ In (Sys_setsockopt (s self') (IPPROTO_IPV6 H) v6only 0) t.
Proof.
  intros Hv6 Hrun Hs.
  destruct (sp_usock_init_success _ _ _ _ _ _ _ _ _ Hrun Hs)
    as (_ & Hself & e & w1 & w2 & _ & Hw1 & Hw2 & Htune).
  apply sp_usock_tune_calls in Htune as (t & Ht & _ & _ & _ & Hin & _).
  eexists. split.
  - rewrite Ht, Hw2, Hw1, <- !app_assoc. reflexivity.
  - apply in_or_app. right. apply in_or_app. right. apply Hin; [done|].
    by rewrite Hself.
Qed.

Lemma sp_usock_init_v6_mapping_witness :
  exists t,
    [Sys_socket 10 524289 0; Sys_fcntl 3 3 0; Sys_fcntl 3 4 2048;
     Sys_setsockopt 3 41 26 0]
    = [] ++ t
    /\ In (Sys_setsockopt 3 (IPPROTO_IPV6 linux_x86_64) 26 0) t.
Proof.
  apply (sp_usock_init_v6_mapping linux_x86_64 usock0
           (SOCK_STREAM linux_x86_64) 0 (world0 kernel_ok) 0
           {| s := 3; domain := 10; type := 524289; protocol := 0;
              aio := NULL |}
           {| os := kernel_ok; errno := 0;
              trace := [Sys_socket 10 524289 0; Sys_fcntl 3 3 0;
                        Sys_fcntl 3 4 2048; Sys_setsockopt 3 41 26 0] |}
           26).
  - reflexivity.
  - vm_compute. reflexivity.
  - simpl. lia.
Defined.

(** X13: init reports one failure only, that of [socket] itself.  When it
    returns a non-zero value, the value is minus the [errno] that call
    left, no other call was made, and of the structure only the handle was
    written.  (A failure of any later call aborts instead.) *)
Theorem sp_usock_init_failure H self dom ty proto w rc self' w' :
  sp_usock_init H self dom ty proto w = Ok ((rc, self'), w') ->
  rc <> 0 ->
  s self' < 0
  /\ rc = - errno w'
  /\ self' = set_s (s self') self
  /\ exists ty',
       trace w' = trace w ++ [Sys_socket dom ty' proto]
       /\ os w (trace w) (Sys_socket dom ty' proto) = (s self', errno w').
Proof.
  unfold sp_usock_init. cbv zeta. intros Hrun Hrc.
  apply bind_Ok in Hrun as (fd & w1 & Hsock & Hrun).
  apply sys_Ok in Hsock as (e & Hos & ->).
  destruct (Z.ltb_spec fd 0) as [Hneg|Hpos].
  - run_inv. simpl. split; [done|]. split; [done|]. split; [done|].
    by eexists.
  - run_inv; done.
Qed.

Lemma sp_usock_init_failure_witness :
  -1 < 0
  /\ -97 = - 97
  /\ set_s (-1) usock0 = set_s (-1) usock0
  /\ exists ty',
       [Sys_socket 77 524289 0] = [] ++ [Sys_socket 77 ty' 0]
       /\ kernel_answers (-1) 97 [] (Sys_socket 77 ty' 0) = (-1, 97).
Proof.
  apply (sp_usock_init_failure linux_x86_64 usock0 77 1 0
           (world0 (kernel_answers (-1) 97)) (-97) (set_s (-1) usock0)
           {| os := kernel_answers (-1) 97; errno := 97;
              trace := [Sys_socket 77 524289 0] |}).
  - vm_compute. reflexivity.
  - discriminate.
Defined.

(** X14: [sp_usock_send] returns in one case only, with 0 and the length
    as it was: the platform call took exactly the requested number of
    bytes.  Whatever else the platform answers to a non-empty request (a
    short count, would-block, any other error) the process is aborted; no
    error code comes back. *)
Theorem sp_usock_send_all_or_abort H self buf len flags hndl w nbytes e :
  send_errno_distinct H = true ->
  len <> 0 ->
  os w (trace w)
     (Sys_send (s self) buf len
        (match MSG_NOSIGNAL H with Some f => f | None => 0 end))
  = (nbytes, e) ->
  sp_usock_send H self buf len flags hndl w
  = if to_size_t H nbytes =? len
    then Ok ((0, len),
             after_call w
               (Sys_send (s self) buf len
                  (match MSG_NOSIGNAL H with Some f => f | None => 0 end))
               e)
    else Abort.
Proof.
  unfold send_errno_distinct. simpl. rewrite !andb_true_iff.
  intros ((Hi1 & Hi2) & (Hc1 & Hc2) & (Hp1 & Hp2) & _) Hlen Hos.
  unfold sp_usock_send, bind, sys.
  replace (len =? 0) with false by tests_lia.
  rewrite Hos. destruct (to_size_t H nbytes =? len); [done|].
  destruct (nbytes <? 0); [|done].
  unfold get_errno; simpl.
  destruct (Z.eqb_spec e (EAGAIN H)) as [->|]; simpl.
  - apply negb_true_iff in Hi1, Hc1, Hp1.
    rewrite (Z.eqb_sym (EAGAIN H)), Hi1.
    rewrite (Z.eqb_sym (EAGAIN H)), Hc1.
    rewrite (Z.eqb_sym (EAGAIN H)), Hp1. done.
  - destruct (Z.eqb_spec e (EWOULDBLOCK H)) as [->|]; simpl; [|done].
    apply negb_true_iff in Hi2, Hc2, Hp2.
    rewrite (Z.eqb_sym (EWOULDBLOCK H)), Hi2.
    rewrite (Z.eqb_sym (EWOULDBLOCK H)), Hc2.
    rewrite (Z.eqb_sym (EWOULDBLOCK H)), Hp2. done.
Qed.

Lemma sp_usock_send_all_or_abort_witness :
  sp_usock_send linux_x86_64 sock3 4096 10 0 0
    (world0 (kernel_answers (-1) (EAGAIN linux_x86_64)))
  = if to_size_t linux_x86_64 (-1) =? 10
    then Ok ((0, 10),
             after_call (world0 (kernel_answers (-1) (EAGAIN linux_x86_64)))
               (Sys_send 3 4096 10 16384) (EAGAIN linux_x86_64))
    else Abort.
Proof.
  apply (sp_usock_send_all_or_abort linux_x86_64 sock3 4096 10 0 0
           (world0 (kernel_answers (-1) (EAGAIN linux_x86_64)))
           (-1) (EAGAIN linux_x86_64)).
  - reflexivity.
  - discriminate.
  - reflexivity.
Defined.

(** X15: what [sp_usock_recv] can return.  The return value is 0,
    [-EINTR] or [-ECONNRESET], never [-EINPROGRESS]; the length is left
    as it was unless a short read is accepted under SP_USOCK_PARTIAL; a
    request of length 0 makes no system call, any other request makes
    exactly one, a [recv] on the socket's handle with flags 0, whatever
    flags the caller passed. *)
Theorem sp_usock_recv_returns H self buf len flags hndl w rc len' w' :
  sp_usock_recv H self buf len flags hndl w = Ok ((rc, len'), w') ->
  (rc = 0 \/ rc = - EINTR H \/ rc = - ECONNRESET H)
  /\ (len' = len
      \/ (rc = 0 /\ 0 < len' /\ Z.land flags (SP_USOCK_PARTIAL H) <> 0))
  /\ (len = 0 -> w' = w)
  /\ (len <> 0 ->
      exists e, w' = after_call w (Sys_recv (s self) buf len 0) e).
Proof.
  unfold sp_usock_recv. intros Hrun.
  destruct (Z.eqb_spec len 0) as [->|Hlen].
  { run_inv. split; [auto|]. split; [auto|]. split; [done|]. done. }
  run_inv; (split; [auto|]); (split; [|split; [done|intros _; by eexists]]).
  all: first [ by left | right; split; [done|]; tests_lia ].
Qed.

Lemma sp_usock_recv_returns_witness :
  (0 = 0 \/ 0 = - EINTR linux_x86_64 \/ 0 = - ECONNRESET linux_x86_64)
  /\ (4 = 10 \/ (0 = 0 /\ 0 < 4 /\ Z.land 1 (SP_USOCK_PARTIAL linux_x86_64) <> 0))
  /\ (10 = 0 ->
      after_call (world0 (kernel_answers 4 0)) (Sys_recv 3 4096 10 0) 0
      = world0 (kernel_answers 4 0))
  /\ (10 <> 0 ->
      exists e,
        after_call (world0 (kernel_answers 4 0)) (Sys_recv 3 4096 10 0) 0
        = after_call (world0 (kernel_answers 4 0))
            (Sys_recv (s sock3) 4096 10 0) e).
Proof.
  apply (sp_usock_recv_returns linux_x86_64 sock3 4096 10 1 0
           (world0 (kernel_answers 4 0)) 0 4
           (after_call (world0 (kernel_answers 4 0))
              (Sys_recv 3 4096 10 0) 0)).
  vm_compute. reflexivity.
Defined.

(** X16: the one partial transfer that is accepted.  With the
    SP_USOCK_PARTIAL flag, a read that brings fewer bytes than requested,
    but at least one, is a success: 0 is returned and the length is set to
    the number of bytes read. *)
Theorem sp_usock_recv_partial H self buf len flags hndl w nbytes e :
  Z.land flags (SP_USOCK_PARTIAL H) <> 0 ->
  len <= SIZE_MAX H ->
  os w (trace w) (Sys_recv (s self) buf len 0) = (nbytes, e) ->
  0 < nbytes < len ->
  sp_usock_recv H self buf len flags hndl w
  = Ok ((0, nbytes), after_call w (Sys_recv (s self) buf len 0) e).
Proof.
  intros Hflag Hlen Hos Hn.
  unfold sp_usock_recv, bind, sys.
  replace (len =? 0) with false by tests_lia.
  rewrite Hos, to_size_t_small by lia.
  replace (nbytes =? len) with false by tests_lia.
  replace (0 <? nbytes) with true by tests_lia.
  replace (Z.land flags (SP_USOCK_PARTIAL H) =? 0) with false by tests_lia.
  done.
Qed.

Lemma sp_usock_recv_partial_witness :
  sp_usock_recv linux_x86_64 sock3 4096 10 1 0 (world0 (kernel_answers 4 0))
  = Ok ((0, 4),
        after_call (world0 (kernel_answers 4 0)) (Sys_recv 3 4096 10 0) 0).
Proof.
  apply (sp_usock_recv_partial linux_x86_64 sock3 4096 10 1 0
           (world0 (kernel_answers 4 0)) 4 0).
  - discriminate.
  - vm_compute. discriminate.
  - reflexivity.
  - lia.
Defined.

(** X17: an interrupted read is handed back to the caller: when the
    platform call fails with EINTR, [sp_usock_recv] returns [-EINTR] and
    leaves the length alone. *)
Theorem sp_usock_recv_eintr H self buf len flags hndl w :
  EINTR H <> EAGAIN H -> EINTR H <> EWOULDBLOCK H ->
  0 < len < SIZE_MAX H ->
  os w (trace w) (Sys_recv (s self) buf len 0) = (-1, EINTR H) ->
  sp_usock_recv H self buf len flags hndl w
  = Ok ((- EINTR H, len),
        after_call w (Sys_recv (s self) buf len 0) (EINTR H)).
Proof.
  intros Ha Hw Hlen Hos.
  unfold sp_usock_recv, bind, sys.
  replace (len =? 0) with false by tests_lia.
  rewrite Hos, to_size_t_minus_one by lia.
  replace (SIZE_MAX H =? len) with false by tests_lia.
  unfold get_errno; simpl.
  replace (EINTR H =? EAGAIN H) with false by tests_lia.
  replace (EINTR H =? EWOULDBLOCK H) with false by tests_lia.
  by rewrite Z.eqb_refl.
Qed.

Lemma sp_usock_recv_eintr_witness :
  sp_usock_recv linux_x86_64 sock3 4096 10 0 0
    (world0 (kernel_answers (-1) (EINTR linux_x86_64)))
  = Ok ((- EINTR linux_x86_64, 10),
        after_call (world0 (kernel_answers (-1) (EINTR linux_x86_64)))
          (Sys_recv 3 4096 10 0) (EINTR linux_x86_64)).
Proof.
  apply (sp_usock_recv_eintr linux_x86_64 sock3 4096 10 0 0
           (world0 (kernel_answers (-1) (EINTR linux_x86_64)))).
  - discriminate.
  - discriminate.
  - vm_compute. split; reflexivity.
  - reflexivity.
Defined.

(** X18: every failure of the platform read other than an interruption and
    the five connection failures aborts the process.  This includes
    would-block: on this build a read that cannot complete at once is not
    reported as pending. *)
Theorem sp_usock_recv_other_failures_abort H self buf len flags hndl w e :
  0 < len < SIZE_MAX H ->
  os w (trace w) (Sys_recv (s self) buf len 0) = (-1, e) ->
  e = EAGAIN H \/ e = EWOULDBLOCK H
  \/ (e <> EINTR H /\ ~ In e (recv_failures H)) ->
  sp_usock_recv H self buf len flags hndl w = Abort.
Proof.
  intros Hlen Hos He.
  unfold sp_usock_recv, bind, sys.
  replace (len =? 0) with false by tests_lia.
  rewrite Hos, to_size_t_minus_one by lia.
  replace (SIZE_MAX H =? len) with false by tests_lia.
  unfold get_errno; simpl.
  destruct ((e =? EAGAIN H) || (e =? EWOULDBLOCK H)) eqn:Ewb; [done|].
  apply orb_false_iff in Ewb as [Ea Ew].
  destruct He as [->|[->|[Hintr Hnin]]];
    [by rewrite Z.eqb_refl in Ea|by rewrite Z.eqb_refl in Ew|].
  replace (e =? EINTR H) with false by tests_lia.
  unfold recv_failures in Hnin. simpl in Hnin.
  replace (e =? ECONNRESET H) with false by tests_lia.
  replace (e =? ECONNREFUSED H) with false by tests_lia.
  replace (e =? ETIMEDOUT H) with false by tests_lia.
  replace (e =? EHOSTUNREACH H) with false by tests_lia.
  replace (e =? ENOTCONN H) with false by tests_lia.
  done.
Qed.

Lemma sp_usock_recv_other_failures_abort_witness :
  sp_usock_recv linux_x86_64 sock3 4096 10 1 0
    (world0 (kernel_answers (-1) (EAGAIN linux_x86_64)))
  = Abort
  /\ sp_usock_recv linux_x86_64 sock3 4096 10 0 0
       (world0 (kernel_answers (-1) 9))
     = Abort.
Proof.
  split.
  - apply (sp_usock_recv_other_failures_abort linux_x86_64 sock3 4096 10 1 0
             (world0 (kernel_answers (-1) (EAGAIN linux_x86_64)))
             (EAGAIN linux_x86_64)).
    + vm_compute. split; reflexivity.
    + reflexivity.
    + left. reflexivity.
  - apply (sp_usock_recv_other_failures_abort linux_x86_64 sock3 4096 10 0 0
             (world0 (kernel_answers (-1) 9)) 9).
    + vm_compute. split; reflexivity.
    + reflexivity.
    + right. right. split; [discriminate|].
      simpl. intros [?|[?|[?|[?|[?|[]]]]]]; discriminate.
Defined.

(** X19: the corner of the comparison [nbytes == *len], which compares a
    signed count with an unsigned length.  With a requested length of
    SIZE_MAX, a platform call that fails (returns -1) is taken for a
    complete transfer: both functions return 0, whatever [errno] says. *)
Theorem sp_usock_size_max_failure_is_success H self buf flags hndl w e :
  0 < SIZE_MAX H ->
  (os w (trace w)
      (Sys_send (s self) buf (SIZE_MAX H)
         (match MSG_NOSIGNAL H with Some f => f | None => 0 end))
   = (-1, e) ->
   exists w', sp_usock_send H self buf (SIZE_MAX H) flags hndl w
              = Ok ((0, SIZE_MAX H), w'))
  /\ (os w (trace w) (Sys_recv (s self) buf (SIZE_MAX H) 0) = (-1, e) ->
      exists w', sp_usock_recv H self buf (SIZE_MAX H) flags hndl w
                 = Ok ((0, SIZE_MAX H), w')).
Proof.
  intros Hmax. split; intros Hos.
  - unfold sp_usock_send, bind, sys.
    replace (SIZE_MAX H =? 0) with false by tests_lia.
    rewrite Hos, to_size_t_minus_one, Z.eqb_refl by lia. by eexists.
  - unfold sp_usock_recv, bind, sys.
    replace (SIZE_MAX H =? 0) with false by tests_lia.
    rewrite Hos, to_size_t_minus_one, Z.eqb_refl by lia. by eexists.
Qed.

Lemma sp_usock_size_max_failure_is_success_witness :
  (kernel_answers (-1) 104 []
     (Sys_send 3 4096 (SIZE_MAX linux_x86_64) 16384) = (-1, 104) ->
   exists w', sp_usock_send linux_x86_64 sock3 4096 (SIZE_MAX linux_x86_64)
                0 0 (world0 (kernel_answers (-1) 104))
              = Ok ((0, SIZE_MAX linux_x86_64), w'))
  /\ (kernel_answers (-1) 104 []
        (Sys_recv 3 4096 (SIZE_MAX linux_x86_64) 0) = (-1, 104) ->
      exists w', sp_usock_recv linux_x86_64 sock3 4096
                   (SIZE_MAX linux_x86_64) 0 0
                   (world0 (kernel_answers (-1) 104))
                 = Ok ((0, SIZE_MAX linux_x86_64), w')).
Proof.
  apply (sp_usock_size_max_failure_is_success linux_x86_64 sock3 4096 0 0
           (world0 (kernel_answers (-1) 104)) 104).
  vm_compute. reflexivity.
Defined.

(** When setting SO_REUSEADDR fails, [sp_usock_listen] aborts. *)
Lemma sp_usock_listen_reuseaddr_fails H self backlog w :
  fst (os w (trace w)
         (Sys_setsockopt (s self) (SOL_SOCKET H) (SO_REUSEADDR H) 1)) <> 0 ->
  sp_usock_listen H self backlog w = Abort.
Proof.
  intros Hfail. unfold sp_usock_listen, bind, sys.
  destruct (os w (trace w) _) as [r e]. simpl in *.
  unfold errno_assert, sp_assert.
  by replace (r =? 0) with false by tests_lia.
Qed.

(** X20: [sp_usock_listen] never listens without address reuse.  When it
    returns, SO_REUSEADDR was set on the handle with success, [listen] was
    the next and last call, and the return value is 0 or, when [listen]
    failed, minus its [errno]; a failure to set the option is never
    returned. *)
Theorem sp_usock_listen_reuseaddr H self backlog w rc w' :
  sp_usock_listen H self backlog w = Ok (rc, w') ->
  trace w' = trace w
             ++ [Sys_setsockopt (s self) (SOL_SOCKET H) (SO_REUSEADDR H) 1;
                 Sys_listen (s self) backlog]
  /\ fst (os w (trace w)
            (Sys_setsockopt (s self) (SOL_SOCKET H) (SO_REUSEADDR H) 1)) = 0
  /\ (rc = 0 \/ rc = - errno w').
Proof.
  unfold sp_usock_listen. intros Hrun.
  apply bind_Ok in Hrun as (r1 & w1 & Hs1 & Hrun).
  apply sys_Ok in Hs1 as (e1 & Hos1 & ->).
  apply bind_Ok in Hrun as ([] & w2 & Ha & Hrun).
  apply sp_assert_Ok in Ha as [Hr1 ->].
  apply bind_Ok in Hrun as (r2 & w3 & Hs2 & Hrun).
  apply sys_Ok in Hs2 as (e2 & Hos2 & ->).
  rewrite Hos1. simpl in *.
  destruct (r2 <? 0); run_inv; simpl; rewrite <- app_assoc;
    (split; [done|]); (split; [lia|auto]).
Qed.

Lemma sp_usock_listen_reuseaddr_witness :
  [Sys_setsockopt 3 1 2 1; Sys_listen 3 10]
  = [] ++ [Sys_setsockopt (s sock3) (SOL_SOCKET linux_x86_64)
             (SO_REUSEADDR linux_x86_64) 1;
           Sys_listen (s sock3) 10]
  /\ fst (kernel_ok []
            (Sys_setsockopt (s sock3) (SOL_SOCKET linux_x86_64)
               (SO_REUSEADDR linux_x86_64) 1)) = 0
  /\ (0 = 0 \/ 0 = - 0).
Proof.
  apply (sp_usock_listen_reuseaddr linux_x86_64 sock3 10 (world0 kernel_ok) 0
           {| os := kernel_ok; errno := 0;
              trace := [Sys_setsockopt 3 1 2 1; Sys_listen 3 10] |}).
  vm_compute. reflexivity.
Defined.

(** X21: init and registration compose.  A socket that init has opened is
    unregistered, so its registration with a port succeeds, makes no
    system call and records the port; a second registration aborts. *)
Theorem sp_usock_init_then_register H self dom ty proto w rc self' w' cp :
  sp_usock_init H self dom ty proto w = Ok ((rc, self'), w') ->
  0 <= s self' ->
  cp <> NULL ->
  sp_cp_register_usock cp self' w' = Ok (set_aio cp self', w')
  /\ s (set_aio cp self') = s self'
  /\ register_all [cp; cp] self' w' = Abort.
Proof.
  intros Hrun Hs Hcp.
  destruct (sp_usock_init_success _ _ _ _ _ _ _ _ _ Hrun Hs)
    as (_ & Hself & _).
  assert (Hreg : sp_cp_register_usock cp self' w' = Ok (set_aio cp self', w')).
  { unfold sp_cp_register_usock, bind, sp_assert. by rewrite Hself. }
  split; [done|]. split; [done|].
  simpl. unfold bind at 1. rewrite Hreg. unfold bind.
  by rewrite (register_registered cp (set_aio cp self') w').
Qed.

Lemma sp_usock_init_then_register_witness :
  sp_cp_register_usock 8192
    {| s := 3; domain := 2; type := 524289; protocol := 0; aio := NULL |}
    {| os := kernel_ok; errno := 0;
       trace := [Sys_socket 2 524289 0; Sys_fcntl 3 3 0;
                 Sys_fcntl 3 4 2048] |}
  = Ok (set_aio 8192
          {| s := 3; domain := 2; type := 524289; protocol := 0;
             aio := NULL |},
        {| os := kernel_ok; errno := 0;
           trace := [Sys_socket 2 524289 0; Sys_fcntl 3 3 0;
                     Sys_fcntl 3 4 2048] |})
  /\ s (set_aio 8192
          {| s := 3; domain := 2; type := 524289; protocol := 0;
             aio := NULL |}) = 3
  /\ register_all [8192; 8192]
       {| s := 3; domain := 2; type := 524289; protocol := 0; aio := NULL |}
       {| os := kernel_ok; errno := 0;
          trace := [Sys_socket 2 524289 0; Sys_fcntl 3 3 0;
                    Sys_fcntl 3 4 2048] |}
     = Abort.
Proof.
  apply (sp_usock_init_then_register linux_x86_64 usock0
           (AF_INET linux_x86_64) (SOCK_STREAM linux_x86_64) 0
           (world0 kernel_ok) 0
           {| s := 3; domain := 2; type := 524289; protocol := 0;
              aio := NULL |}
           {| os := kernel_ok; errno := 0;
              trace := [Sys_socket 2 524289 0; Sys_fcntl 3 3 0;
                        Sys_fcntl 3 4 2048] |} 8192).
  - vm_compute. reflexivity.
  - simpl. lia.
  - discriminate.
Defined.
